(** * The query filter of [workflow/old_workflow.py]

    A shallow embedding of [Workflow.filter], [Workflow._filter_item] and
    [Workflow._search_for_query] together with the constants of
    [workflow/constants.py] they use, and the properties of the ranking
    engine proved (or refuted) on that embedding.

    Conventions.
    - A Python [str] is the list of its Unicode code points ([list N]).
    - A Python [float] score is an exact rational ([Q]); the properties
      below concern only the sign of a score, whether it is zero, and the
      order of sort keys, never the rounding of an operation.  Scores are
      compared with [Qeq], the way Python compares numbers by value.
    - Code that can raise returns a [result]; [Raise] carries the
      exception. *)

From Stdlib Require Import String Ascii ZArith NArith QArith Bool Lia List
  Sorted Permutation.
Import ListNotations.
Close Scope Q_scope.
Open Scope Z_scope.

(** ** Python built-ins used by the filter *)

Module Py.

Definition str := list N.

(** A literal of ASCII characters as a Python string. *)
Definition of_string (s : string) : str :=
  map N_of_ascii (list_ascii_of_string s).

(** [len(s)], as a Python integer. *)
Definition len (s : str) : Z := Z.of_nat (length s).

(** [s == ''] *)
Definition is_empty (s : str) : bool :=
  match s with [] => true | _ :: _ => false end.

Fixpoint str_eqb (s t : str) : bool :=
  match s, t with
  | [], [] => true
  | c :: s', d :: t' => N.eqb c d && str_eqb s' t'
  | _, _ => false
  end.

(** [s < t]: code points compared left to right, a proper prefix first. *)
Fixpoint str_ltb (s t : str) : bool :=
  match s, t with
  | _, [] => false
  | [], _ :: _ => true
  | c :: s', d :: t' =>
      if N.eqb c d then str_ltb s' t' else N.ltb c d
  end.

(** [c.isspace()]: the code points [str.strip()] removes. *)
Definition isspace (c : N) : bool :=
  (((9 <=? c) && (c <=? 13)) || ((28 <=? c) && (c <=? 32))
   || (c =? 133) || (c =? 160) || (c =? 5760)
   || ((8192 <=? c) && (c <=? 8202))
   || (c =? 8232) || (c =? 8233) || (c =? 8239) || (c =? 8287)
   || (c =? 12288))%N.

Fixpoint lstrip (s : str) : str :=
  match s with
  | [] => []
  | c :: s' => if isspace c then lstrip s' else s
  end.

Definition rstrip (s : str) : str := rev (lstrip (rev s)).

(** [s.strip()] *)
Definition strip (s : str) : str := rstrip (lstrip s).

(** Splitting at every single character satisfying [sep]; two adjacent
    separators enclose an empty piece, and the pieces are always one more
    than the separators.  This is both [s.split(' ')] and the [split] of a
    compiled one-character class. *)
Fixpoint split_at (sep : N -> bool) (s : str) : list str :=
  match s with
  | [] => [[]]
  | c :: s' =>
      if sep c then [] :: split_at sep s'
      else match split_at sep s' with
           | w :: ws => (c :: w) :: ws
           | [] => [[c]]
           end
  end.

(** [s.split(' ')] *)
Definition split_space (s : str) : list str := split_at (N.eqb 32) s.

(** [s.startswith(p)] *)
Fixpoint startswith (s p : str) : bool :=
  match p, s with
  | [], _ => true
  | _ :: _, [] => false
  | c :: p', d :: s' => N.eqb c d && startswith s' p'
  end.

(** [p in s] for strings: [p] occurs in [s] as a contiguous piece. *)
Fixpoint contains (s p : str) : bool :=
  startswith s p ||
  match s with
  | [] => false
  | _ :: s' => contains s' p
  end.

(** [c in s] for a single character [c]. *)
Definition char_in (c : N) (s : str) : bool := existsb (N.eqb c) s.

(** [set(a) <= set(b)] *)
Definition set_le (a b : str) : bool := forallb (fun c => char_in c b) a.

(** [x in l] for a list of strings. *)
Definition str_in (x : str) (l : list str) : bool := existsb (str_eqb x) l.

(** Truth value of an integer and of a float. *)
Definition truthy (z : Z) : bool := negb (z =? 0).
Definition nonzero (q : Q) : bool := negb (Qeq_bool q 0).

Definition Qlt_bool (x y : Q) : bool := negb (Qle_bool y x).

(** [l[:m]] *)
Definition slice_to {A} (l : list A) (m : Z) : list A :=
  if m <? 0 then firstn (Z.to_nat (Z.of_nat (length l) + m)) l
  else firstn (Z.to_nat m) l.

(** Exceptions: the ones the engine itself can meet, and whatever the
    caller's [key] function raises. *)
Inductive exn (E : Type) : Type :=
| ZeroDivisionError
| TypeError
| Raised (e : E).
Arguments ZeroDivisionError {E}.
Arguments TypeError {E}.

Inductive result (E A : Type) : Type :=
| Ok (a : A)
| Raise (e : exn E).
Arguments Ok {E A} a.
Arguments Raise {E A} e.

Definition bind {E A B} (m : result E A) (k : A -> result E B) : result E B :=
  match m with
  | Ok a => k a
  | Raise e => Raise e
  end.

(** True division [a / b]. *)
Definition truediv {E} (a b : Q) : result E Q :=
  if Qeq_bool b 0 then Raise ZeroDivisionError else Ok (a / b)%Q.

End Py.

Import Py.

Notation "x <- m ;; k" := (bind m (fun x => k))
  (at level 61, m at next level, right associativity).
Notation "' p <- m ;; k" := (bind m (fun x => match x with p => k end))
  (at level 61, p pattern, m at next level, right associativity).

(** ** [workflow/constants.py] *)

Definition INITIALS : str :=
  of_string "ABCDEFGHIJKLMNOPQRSTUVWXYZ0123456789".

(** The character class [[^a-zA-Z0-9]]. *)
Definition is_delimiter (c : N) : bool :=
  negb (((97 <=? c) && (c <=? 122)) || ((65 <=? c) && (c <=? 90))
        || ((48 <=? c) && (c <=? 57)))%N.

Definition split_on_delimiters (s : str) : list str :=
  split_at is_delimiter s.

Definition MATCH_STARTSWITH : Z := 1.
Definition MATCH_CAPITALS : Z := 2.
Definition MATCH_ATOM : Z := 4.
Definition MATCH_INITIALS_STARTSWITH : Z := 8.
Definition MATCH_INITIALS_CONTAIN : Z := 16.
Definition MATCH_INITIALS : Z := 24.
Definition MATCH_SUBSTRING : Z := 32.
Definition MATCH_ALLCHARS : Z := 64.
Definition MATCH_ALL : Z := 127.

(** ** [Workflow] in [workflow/old_workflow.py] *)

Section Workflow.

(** The candidates, and the exceptions a caller's [key] may raise. *)
Variable Item : Type.
Variable Exc : Type.

(** [==] and [<] between two candidates; [<] raises [TypeError] ([None])
    between values Python does not order, such as two dictionaries. *)
Variable item_eqb : Item -> Item -> bool.
Variable item_lt : Item -> Item -> option bool.

(** [str.lower()], over all of Unicode. *)
Variable lower : str -> str.

(** Whether two characters are equal under [re.IGNORECASE]. *)
Variable ci_eq : N -> N -> bool.

(** [Workflow.fold_to_ascii], which is not among the sources: the
    transliteration of a search key through the replacement table. *)
Variable fold_to_ascii : str -> str.

(** [self.settings.get('__workflow_diacritic_folding', fold_diacritics)]:
    the stored override, when there is one. *)
Variable diacritic_folding_setting : option bool.

(** Modelled from the spec: [isascii], imported by the module but not among
    the sources; the query "is pure ASCII" when each of its characters is
    below 128. *)
Definition isascii (s : str) : bool := forallb (fun c => (c <? 128)%N) s.

(** *** [_search_for_query]

    The pattern is [.*?c] for each character [c] of the query, escaped, and
    compiled with [re.IGNORECASE]; the function returns the pattern's
    [search].  [_search_pattern_cache] keeps one compiled pattern per query
    and changes no result, so [search] is given directly. *)

(** [.*?c] followed by the rest of the pattern, tried at the head of [s]:
    the lazy star takes as few characters as the rest allows, and [.] does
    not match a newline.  The result is the number of characters matched. *)
Fixpoint lazy_then (c : N) (rest : str -> option nat) (s : str)
  : option nat :=
  match s with
  | [] => None
  | x :: s' =>
      match (if ci_eq c x then rest s' else None) with
      | Some n => Some (S n)
      | None =>
          if (x =? 10)%N then None
          else option_map S (lazy_then c rest s')
      end
  end.

Fixpoint match_here (pattern : str) : str -> option nat :=
  match pattern with
  | [] => fun _ => Some O
  | c :: pattern' => lazy_then c (match_here pattern')
  end.

(** [search(value)]: the leftmost position at which the pattern matches,
    as [(match.start(), match.end())]. *)
Fixpoint search_from (pattern : str) (start : nat) (s : str)
  : option (nat * nat) :=
  match match_here pattern s with
  | Some n => Some (start, (start + n)%nat)
  | None =>
      match s with
      | [] => None
      | _ :: s' => search_from pattern (S start) s'
      end
  end.

Definition _search_for_query (query : str) : str -> option (nat * nat) :=
  search_from query O.

(** *** [_filter_item] *)

Definition score_and_rule := (Q * option Z)%type.

(** [100.0 - (len(a) / len(b))], with the other two bases as well. *)
Definition length_score (base : Q) (a b : str) : result Exc Q :=
  r <- truediv (inject_Z (len a)) (inject_Z (len b)) ;;
  Ok (base - r)%Q.

(** [''.join([c for c in value if c in INITIALS])] *)
Definition capitals (value : str) : str :=
  List.filter (fun c => char_in c INITIALS) value.

(** [[s.lower() for s in split_on_delimiters(value)]] *)
Definition atoms_of (value : str) : list str :=
  map lower (split_on_delimiters value).

(** [''.join([s[0] for s in atoms if s])] *)
Definition initials_of (atoms : list str) : str :=
  flat_map (fun s => match s with [] => [] | c :: _ => [c] end) atoms.

(** The local variables [atoms] and [initials] are bound only under the
    tests on [match_on] that also guard every later use of them; an unbound
    one is written [[]] here, and is never read. *)
Definition _filter_item (value query : str) (match_on : Z)
    (fold_diacritics : bool) : result Exc score_and_rule :=
  let query := lower query in
  let fold_diacritics :=
    if negb (isascii query) then false else fold_diacritics in
  let value := if fold_diacritics then fold_to_ascii value else value in
  if negb (set_le query (lower value)) then Ok (0%Q, None)
  else
  if truthy (Z.land match_on MATCH_STARTSWITH)
     && startswith (lower value) query
  then score <- length_score 100 value query ;;
       Ok (score, Some MATCH_STARTSWITH)
  else
  let initials :=
    if truthy (Z.land match_on MATCH_CAPITALS) then capitals value else [] in
  if truthy (Z.land match_on MATCH_CAPITALS)
     && startswith (lower initials) query
  then score <- length_score 100 initials query ;;
       Ok (score, Some MATCH_CAPITALS)
  else
  let '(atoms, initials) :=
    if truthy (Z.land match_on MATCH_ATOM)
       || truthy (Z.land match_on MATCH_INITIALS_CONTAIN)
       || truthy (Z.land match_on MATCH_INITIALS_STARTSWITH)
    then let atoms := atoms_of value in (atoms, initials_of atoms)
    else ([], initials) in
  if truthy (Z.land match_on MATCH_ATOM) && str_in query atoms
  then score <- length_score 100 value query ;;
       Ok (score, Some MATCH_ATOM)
  else
  if truthy (Z.land match_on MATCH_INITIALS_STARTSWITH)
     && startswith initials query
  then score <- length_score 100 initials query ;;
       Ok (score, Some MATCH_INITIALS_STARTSWITH)
  else
  if truthy (Z.land match_on MATCH_INITIALS_CONTAIN)
     && contains initials query
  then score <- length_score 95 initials query ;;
       Ok (score, Some MATCH_INITIALS_CONTAIN)
  else
  if truthy (Z.land match_on MATCH_SUBSTRING)
     && contains (lower value) query
  then score <- length_score 90 value query ;;
       Ok (score, Some MATCH_SUBSTRING)
  else
  if truthy (Z.land match_on MATCH_ALLCHARS)
  then
    match _search_for_query query value with
    | Some (m_start, m_end) =>
        score <- truediv 100
                   (inject_Z ((1 + Z.of_nat m_start)
                              * (Z.of_nat m_end - Z.of_nat m_start + 1))) ;;
        Ok (score, Some MATCH_ALLCHARS)
    | None => Ok (0%Q, None)
    end
  else Ok (0%Q, None).

(** *** The rules one at a time

    Each rule of [_filter_item] taken alone, as the block of the function
    that tests it: [None] when the rule's condition fails, and otherwise the
    score the block computes. *)

Inductive rule : Type :=
| STARTSWITH
| CAPITALS
| ATOM
| INITIALS_STARTSWITH
| INITIALS_CONTAIN
| SUBSTRING
| ALLCHARS.

Definition bit (r : rule) : Z :=
  match r with
  | STARTSWITH => MATCH_STARTSWITH
  | CAPITALS => MATCH_CAPITALS
  | ATOM => MATCH_ATOM
  | INITIALS_STARTSWITH => MATCH_INITIALS_STARTSWITH
  | INITIALS_CONTAIN => MATCH_INITIALS_CONTAIN
  | SUBSTRING => MATCH_SUBSTRING
  | ALLCHARS => MATCH_ALLCHARS
  end.

(** The order in which [_filter_item] tests the rules. *)
Definition priority : list rule :=
  [STARTSWITH; CAPITALS; ATOM; INITIALS_STARTSWITH; INITIALS_CONTAIN;
   SUBSTRING; ALLCHARS].

Definition active (match_on : Z) (r : rule) : bool :=
  truthy (Z.land match_on (bit r)).

Definition rule_alone (r : rule) (value query : str)
  : option (result Exc Q) :=
  match r with
  | STARTSWITH =>
      if startswith (lower value) query
      then Some (length_score 100 value query) else None
  | CAPITALS =>
      let initials := capitals value in
      if startswith (lower initials) query
      then Some (length_score 100 initials query) else None
  | ATOM =>
      if str_in query (atoms_of value)
      then Some (length_score 100 value query) else None
  | INITIALS_STARTSWITH =>
      let initials := initials_of (atoms_of value) in
      if startswith initials query
      then Some (length_score 100 initials query) else None
  | INITIALS_CONTAIN =>
      let initials := initials_of (atoms_of value) in
      if contains initials query
      then Some (length_score 95 initials query) else None
  | SUBSTRING =>
      if contains (lower value) query
      then Some (length_score 90 value query) else None
  | ALLCHARS =>
      match _search_for_query query value with
      | Some (m_start, m_end) =>
          Some (truediv 100
                  (inject_Z ((1 + Z.of_nat m_start)
                             * (Z.of_nat m_end - Z.of_nat m_start + 1))))
      | None => None
      end
  end.

(** The query and the search key the rules see: the query in lower case,
    and the key folded when folding is asked for and the lowered query is
    ASCII. *)
Definition lowered (word : str) : str := lower word.

Definition folded (value word : str) (fold_diacritics : bool) : str :=
  if (if negb (isascii (lower word)) then false else fold_diacritics)
  then fold_to_ascii value else value.

(** The pre-filter: every character of the query occurs in the key. *)
Definition prefilter (value query : str) : bool :=
  set_le query (lower value).

(** The rules in order, stopping at the first active rule whose condition
    holds, whatever score it computes. *)
Fixpoint first_matching (rules : list rule) (match_on : Z)
    (value query : str) : result Exc score_and_rule :=
  match rules with
  | [] => Ok (0%Q, None)
  | r :: rules' =>
      if active match_on r then
        match rule_alone r value query with
        | Some sc => score <- sc ;; Ok (score, Some (bit r))
        | None => first_matching rules' match_on value query
        end
      else first_matching rules' match_on value query
  end.

(** The rules in order, as the specification words it: stopping at the
    first active rule that yields a score other than zero. *)
Fixpoint first_nonzero (rules : list rule) (match_on : Z)
    (value query : str) : result Exc score_and_rule :=
  match rules with
  | [] => Ok (0%Q, None)
  | r :: rules' =>
      if active match_on r then
        match rule_alone r value query with
        | Some sc =>
            score <- sc ;;
            if nonzero score then Ok (score, Some (bit r))
            else first_nonzero rules' match_on value query
        | None => first_nonzero rules' match_on value query
        end
      else first_nonzero rules' match_on value query
  end.

(** [matchWord] as the specification describes it: the pre-filter, then
    the first active rule with a score other than zero. *)
Definition matchWord_spec (value word : str) (match_on : Z)
    (fold_diacritics : bool) : result Exc score_and_rule :=
  let query := lowered word in
  let value := folded value word fold_diacritics in
  if negb (prefilter value query) then Ok (0%Q, None)
  else first_nonzero priority match_on value query.

(** The atoms as the specification words them: the maximal runs of
    alphanumeric characters of the key, in lower case.  [run] is the run
    being read. *)
Fixpoint alnum_runs (run : str) (s : str) : list str :=
  match s with
  | [] => match run with [] => [] | _ :: _ => [rev run] end
  | c :: s' =>
      if is_delimiter c
      then match run with
           | [] => alnum_runs [] s'
           | _ :: _ => rev run :: alnum_runs [] s'
           end
      else alnum_runs (c :: run) s'
  end.

Definition atoms_spec (value : str) : list str :=
  map lower (alnum_runs [] value).

(** *** [filter] *)

(** A member of [results]: the sort key and the [(item, score, rule)]
    triple. *)
Definition sort_key := (Q * str * Q)%type.
Definition scored := (Item * Q * option Z)%type.
Definition entry := (sort_key * scored)%type.

(** What [filter] returns: the candidates alone, or the triples when
    [include_score] is set. *)
Inductive output : Type :=
| Items (l : list Item)
| Scored (l : list scored).

(** Python compares two tuples at the first position where they are not
    equal, and that position alone; equal tuples are not less. *)
Definition key_eqb (a b : sort_key) : bool :=
  let '(a1, a2, a3) := a in
  let '(b1, b2, b3) := b in
  Qeq_bool a1 b1 && str_eqb a2 b2 && Qeq_bool a3 b3.

Definition key_ltb (a b : sort_key) : bool :=
  let '(a1, a2, a3) := a in
  let '(b1, b2, b3) := b in
  if negb (Qeq_bool a1 b1) then Qlt_bool a1 b1
  else if negb (str_eqb a2 b2) then str_ltb a2 b2
  else if negb (Qeq_bool a3 b3) then Qlt_bool a3 b3
  else false.

Definition rule_eqb (a b : option Z) : bool :=
  match a, b with
  | None, None => true
  | Some x, Some y => x =? y
  | _, _ => false
  end.

Definition rule_lt (a b : option Z) : result Exc bool :=
  match a, b with
  | Some x, Some y => Ok (x <? y)
  | _, _ => Raise TypeError
  end.

Definition scored_eqb (a b : scored) : bool :=
  let '(ai, asc, ar) := a in
  let '(bi, bsc, br) := b in
  item_eqb ai bi && Qeq_bool asc bsc && rule_eqb ar br.

Definition scored_lt (a b : scored) : result Exc bool :=
  let '(ai, asc, ar) := a in
  let '(bi, bsc, br) := b in
  if negb (item_eqb ai bi) then
    match item_lt ai bi with
    | Some r => Ok r
    | None => Raise TypeError
    end
  else if negb (Qeq_bool asc bsc) then Ok (Qlt_bool asc bsc)
  else if negb (rule_eqb ar br) then rule_lt ar br
  else Ok false.

Definition entry_lt (a b : entry) : result Exc bool :=
  if negb (key_eqb (fst a) (fst b)) then Ok (key_ltb (fst a) (fst b))
  else if negb (scored_eqb (snd a) (snd b)) then scored_lt (snd a) (snd b)
  else Ok false.

(** [list.sort]: a stable sort that compares with [<] only.  An element
    is put behind everything that is not greater than it. *)
Fixpoint insert_sorted (x : entry) (l : list entry)
  : result Exc (list entry) :=
  match l with
  | [] => Ok [x]
  | y :: l' =>
      b <- entry_lt x y ;;
      if b then Ok (x :: l)
      else l'' <- insert_sorted x l' ;; Ok (y :: l'')
  end.

Fixpoint sort_onto (sorted l : list entry) : result Exc (list entry) :=
  match l with
  | [] => Ok sorted
  | x :: l' => sorted' <- insert_sorted x sorted ;; sort_onto sorted' l'
  end.

(** [l.sort(reverse=r)]: with [reverse] the list is reversed, sorted and
    reversed again, which keeps the sort stable. *)
Definition list_sort (reverse : bool) (l : list entry)
  : result Exc (list entry) :=
  if reverse then l' <- sort_onto [] (rev l) ;; Ok (rev l')
  else sort_onto [] l.

Section Filter.

Variable key : Item -> result Exc str.
Variables (match_on : Z) (fold_diacritics : bool).

(** The loop over [words] for one candidate; the state is [skip], [score]
    and [rule] ([rule] is unbound until the first word that is not empty,
    written [None]). *)
Fixpoint match_words (value : str) (words : list str)
    (st : bool * Q * option Z) : result Exc (bool * Q * option Z) :=
  match words with
  | [] => Ok st
  | word :: words' =>
      if is_empty word then match_words value words' st
      else
        '(s, rule) <- _filter_item value word match_on fold_diacritics ;;
        let '(skip, score, _) := st in
        let skip := if negb (nonzero s) then true else skip in
        match_words value words' (skip, (score + s)%Q, rule)
  end.

(** The loop over [items]; [results] grows at its end. *)
Fixpoint match_items (query : str) (items : list Item)
    (results : list entry) : result Exc (list entry) :=
  match items with
  | [] => Ok results
  | item :: items' =>
      let words := map strip (split_space query) in
      k <- key item ;;
      let value := strip k in
      if is_empty value then match_items query items' results
      else
        '(skip, score, rule) <- match_words value words (false, 0%Q, None) ;;
        if skip then match_items query items' results
        else if nonzero score then
          r <- truediv 100 score ;;
          match_items query items'
            (results ++ [((r, lower value, score), (item, score, rule))])
        else match_items query items' results
  end.

End Filter.

Definition filter (query : str) (items : list Item)
    (key : Item -> result Exc str) (ascending include_score : bool)
    (min_score : Q) (max_results : Z) (match_on : Z)
    (fold_diacritics : bool) : result Exc output :=
  if is_empty query then Ok (Items items)
  else
  let query := strip query in
  if is_empty query then Ok (Items items)
  else
  let fold_diacritics :=
    match diacritic_folding_setting with
    | Some b => b
    | None => fold_diacritics
    end in
  results <- match_items key match_on fold_diacritics query items [] ;;
  results <- list_sort ascending results ;;
  let results := map snd results in
  let results :=
    if nonzero min_score
    then List.filter (fun r => Qlt_bool min_score (snd (fst r))) results
    else results in
  let results :=
    if truthy max_results
       && (max_results <? Z.of_nat (length results))
    then slice_to results max_results
    else results in
  if include_score then Ok (Scored results)
  else Ok (Items (map (fun t => fst (fst t)) results)).

End Workflow.

Arguments Items {Item} l.
Arguments Scored {Item} l.

(** ** The engine on strings

    The candidates are strings, [key] is the default [lambda x: x], and
    the character tables are given on the code points the examples use. *)

Module OnStrings.

(** [str.lower()] one code point at a time: the ASCII and Latin-1 capital
    letters, and three code points whose lower case is not one Latin-1
    character: U+0130 (two code points), U+212A KELVIN SIGN (the ASCII
    letter k) and U+212B ANGSTROM SIGN.  Other code points are kept. *)
Definition lower_char (c : N) : str :=
  (if (65 <=? c) && (c <=? 90) then [c + 32]
   else if (192 <=? c) && (c <=? 222) && negb (c =? 215) then [c + 32]
   else if c =? 304 then [105; 775]
   else if c =? 8490 then [107]
   else if c =? 8491 then [229]
   else [c])%N.

Definition lower (s : str) : str := flat_map lower_char s.

(** Under [re.IGNORECASE] two characters match when their lower cases
    agree. *)
Definition ci_eq (c d : N) : bool := str_eqb (lower_char c) (lower_char d).

(** Modelled from the spec: [Workflow.fold_to_ascii] and its table
    [ASCII_REPLACEMENTS], which are not among the sources; the table is
    given by the three replacements the spec names, which are also the
    ones the docstring of [filter] gives (u-umlaut to u, sharp s to ss,
    e-acute to e), and a character outside it is kept. *)
Definition fold_char (c : N) : str :=
  (if c =? 252 then [117]
   else if c =? 223 then [115; 115]
   else if c =? 233 then [101]
   else [c])%N.

Definition fold_to_ascii (s : str) : str := flat_map fold_char s.

Definition item_lt (a b : str) : option bool := Some (str_ltb a b).

Definition key (x : str) : result Empty_set str := Ok x.

Definition _filter_item := _filter_item Empty_set lower ci_eq fold_to_ascii.

Definition filter query items :=
  filter str Empty_set str_eqb item_lt lower ci_eq fold_to_ascii None
    query items key.

(** The score as a reduced fraction, for display. *)
Definition shown (r : result Empty_set (Q * option Z))
  : option (Q * option Z) :=
  match r with
  | Ok (s, rule) => Some (Qred s, rule)
  | Raise _ => None
  end.

(** The candidates of an output with their scores as reduced fractions. *)
Definition shown_output (r : result Empty_set (output str))
  : option (list (str * Q)) :=
  match r with
  | Ok (Scored l) => Some (map (fun t => (fst (fst t), Qred (snd (fst t)))) l)
  | _ => None
  end.

End OnStrings.

(** ** The engine on dictionaries

    The candidates are dictionaries with a title and an identifier,
    [{'title': t, 'id': n}], and [key] is [lambda d: d['title']].  Two
    dictionaries are equal when their entries are, and Python does not
    order dictionaries: [<] between two of them raises [TypeError]. *)

Module OnRecords.

Definition record := (str * nat)%type.

Definition item_eqb (a b : record) : bool :=
  str_eqb (fst a) (fst b) && Nat.eqb (snd a) (snd b).

Definition item_lt (a b : record) : option bool := None.

Definition key (d : record) : result Empty_set str := Ok (fst d).

Definition filter query items :=
  filter record Empty_set item_eqb item_lt OnStrings.lower OnStrings.ci_eq
    OnStrings.fold_to_ascii None query items key.

End OnRecords.

(** ** [Version] in [workflow/version.py]

    The version numbers [Workflow.version], [Workflow.alfred_version] and
    [Workflow.last_version_run] build, and the update check compares. *)

Module Version.

(** The exceptions of the class, beside [TypeError]. *)
Inductive error : Type :=
| ValueError
| IndexError.

Definition value_error {A} : result error A := Raise (Raised error ValueError).

(** A member of a parsed dotted string: an [int] or a [str]. *)
Inductive part : Type :=
| Num (n : Z)
| Txt (s : str).

(** The attributes of a [Version]. *)
Record t : Type := make {
  vstr : str;
  major : part;
  minor : part;
  patch : part;
  suffix : str;
  build : str
}.

(** Whether a character is a digit for [str.isdigit()], and whether [int()]
    reads it: the decimal digits of every script are read, the other digits
    (superscripts and the like) are not. *)
Inductive digit_kind : Type :=
| NoDigit
| Decimal (v : Z)
| OtherDigit.

Definition is_ascii_digit (c : N) : bool := ((48 <=? c) && (c <=? 57))%N.

(** [str(n)] for an [int]: its decimal digits, after a minus sign when it
    is negative.  [digits_onto fuel n acc] puts the digits of [n] in front
    of [acc]. *)
Fixpoint digits_onto (fuel : nat) (n : Z) (acc : str) : str :=
  match fuel with
  | O => acc
  | S fuel' =>
      let acc' := Z.to_N (48 + n mod 10) :: acc in
      if n / 10 =? 0 then acc' else digits_onto fuel' (n / 10) acc'
  end.

Definition str_of_int (n : Z) : str :=
  if n <? 0 then 45%N :: digits_onto (S (Z.to_nat (Z.log2 (- n)))) (- n) []
  else digits_onto (S (Z.to_nat (Z.log2 n))) n [].

(** [s.find(c)] for a single character: [None] stands for -1. *)
Fixpoint find (c : N) (s : str) : option nat :=
  match s with
  | [] => None
  | x :: s' => if (x =? c)%N then Some O else option_map S (find c s')
  end.

(** The longest prefix of [s] whose characters satisfy [p], and the rest. *)
Fixpoint span (p : N -> bool) (s : str) : str * str :=
  match s with
  | [] => ([], [])
  | c :: s' =>
      if p c then let '(a, b) := span p s' in (c :: a, b) else ([], s)
  end.

(** [match_version], the [match] of a compiled pattern of two groups: a
    digit followed by as many digits and dots as there are, then, if any,
    as many characters other than a newline as there are.  The second
    group is [None] when it takes part in no match. *)
Definition match_version (s : str) : option (str * option str) :=
  match s with
  | [] => None
  | c :: s' =>
      if is_ascii_digit c then
        let '(version, rest) :=
          span (fun x => is_ascii_digit x || (x =? 46)%N) s' in
        let '(suffix, _) := span (fun x => negb (x =? 10)%N) rest in
        Some (c :: version,
              match suffix with [] => None | _ :: _ => Some suffix end)
      else None
  end.

Section Unicode.

(** The digits outside ASCII. *)
Variable unicode_digit : N -> digit_kind.

Definition digit_of (c : N) : digit_kind :=
  if is_ascii_digit c then Decimal (Z.of_N c - 48)
  else if (c <? 128)%N then NoDigit
  else unicode_digit c.

(** [p.isdigit()] *)
Definition isdigit (p : str) : bool :=
  negb (is_empty p)
  && forallb (fun c => match digit_of c with NoDigit => false | _ => true end)
       p.

(** [int(p)] for a string of digits; no limit is put on its length. *)
Fixpoint int_onto (acc : Z) (p : str) : result error Z :=
  match p with
  | [] => Ok acc
  | c :: p' =>
      match digit_of c with
      | Decimal v => int_onto (acc * 10 + v) p'
      | _ => value_error
      end
  end.

Definition int (p : str) : result error Z := int_onto 0 p.

Fixpoint parse_parts (parts : list str) : result error (list part) :=
  match parts with
  | [] => Ok []
  | p :: parts' =>
      p' <- (if isdigit p then n <- int p ;; Ok (Num n) else Ok (Txt p)) ;;
      parsed <- parse_parts parts' ;;
      Ok (p' :: parsed)
  end.

Definition _parse_dotted_string (s : str) : result error (list part) :=
  parse_parts (split_at (N.eqb 46) s).

(** [parts.pop(0)] *)
Definition pop0 (parts : list part) : result error (part * list part) :=
  match parts with
  | [] => Raise (Raised error IndexError)
  | p :: parts' => Ok (p, parts')
  end.

Definition _parse (vstr : str) : result error t :=
  let m :=
    if startswith vstr (of_string "v") then match_version (tl vstr)
    else match_version vstr in
  match m with
  | None => value_error
  | Some (version, suffix) =>
      parts <- _parse_dotted_string version ;;
      '(major, parts) <- pop0 parts ;;
      '(minor, parts) <-
        (if (0 <? length parts)%nat then pop0 parts else Ok (Num 0, parts)) ;;
      '(patch, parts) <-
        (if (0 <? length parts)%nat then pop0 parts else Ok (Num 0, parts)) ;;
      if negb (length parts =? 0)%nat then value_error
      else
        match suffix with
        | Some suffix =>
            let '(build, suffix) :=
              match find 43 suffix with
              | Some idx => (skipn (S idx) suffix, firstn idx suffix)
              | None => ([], suffix)
              end in
            if negb (is_empty suffix) then
              if negb (startswith suffix (of_string "-")) then value_error
              else Ok (make vstr major minor patch (tl suffix) build)
            else Ok (make vstr major minor patch [] build)
        | None => Ok (make vstr major minor patch [] [])
        end
  end.

Definition __init__ (vstr : str) : result error t :=
  if is_empty vstr then value_error else _parse vstr.

(** [==] and [<] between two members of a dotted string or of a tuple: an
    [int] and a [str] are never equal, and [<] between them raises
    [TypeError]. *)
Definition part_eqb (a b : part) : bool :=
  match a, b with
  | Num x, Num y => x =? y
  | Txt s, Txt u => str_eqb s u
  | _, _ => false
  end.

Definition part_lt (a b : part) : result error bool :=
  match a, b with
  | Num x, Num y => Ok (x <? y)
  | Txt s, Txt u => Ok (str_ltb s u)
  | _, _ => Raise TypeError
  end.

(** [self.tuple[:3]] and [self.tuple] *)
Definition tuple3 (v : t) : part * part * part := (major v, minor v, patch v).

Definition tuple (v : t) : part * part * part * str :=
  (major v, minor v, patch v, suffix v).

Definition tuple3_eqb (a b : part * part * part) : bool :=
  let '(a1, a2, a3) := a in
  let '(b1, b2, b3) := b in
  part_eqb a1 b1 && part_eqb a2 b2 && part_eqb a3 b3.

Definition tuple3_lt (a b : part * part * part) : result error bool :=
  let '(a1, a2, a3) := a in
  let '(b1, b2, b3) := b in
  if negb (part_eqb a1 b1) then part_lt a1 b1
  else if negb (part_eqb a2 b2) then part_lt a2 b2
  else if negb (part_eqb a3 b3) then part_lt a3 b3
  else Ok false.

(** [str(s)] for a member of a dotted string. *)
Definition str_of_part (p : part) : str :=
  match p with
  | Num n => str_of_int n
  | Txt s => s
  end.

Definition same_type (a b : part) : bool :=
  match a, b with
  | Num _, Num _ => true
  | Txt _, Txt _ => true
  | _, _ => false
  end.

(** The loop of [__lt__] over [zip_longest(self_suffix, other_suffix)],
    with the [return False] that follows it. *)
Fixpoint compare_suffixes (self_suffix other_suffix : list part)
  : result error bool :=
  match self_suffix, other_suffix with
  | [], [] => Ok false
  | [], _ :: _ => Ok true
  | _ :: _, [] => Ok false
  | s :: self', o :: other' =>
      let '(s, o) :=
        if negb (same_type s o) then (Txt (str_of_part s), Txt (str_of_part o))
        else (s, o) in
      if part_eqb s o then compare_suffixes self' other'
      else part_lt s o
  end.

Definition __lt__ (self other : t) : result error bool :=
  let t := tuple3 self in
  let o := tuple3 other in
  lt <- tuple3_lt t o ;;
  if lt then Ok true
  else if tuple3_eqb t o then
    if negb (is_empty (suffix self)) && is_empty (suffix other) then Ok true
    else if negb (is_empty (suffix other)) && is_empty (suffix self)
    then Ok false
    else
      self_suffix <- _parse_dotted_string (suffix self) ;;
      other_suffix <- _parse_dotted_string (suffix other) ;;
      compare_suffixes self_suffix other_suffix
  else Ok false.

Definition __eq__ (self other : t) : bool :=
  tuple3_eqb (tuple3 self) (tuple3 other)
  && str_eqb (suffix self) (suffix other).

Definition __ne__ (self other : t) : bool := negb (__eq__ self other).

Definition __gt__ (self other : t) : result error bool := __lt__ other self.

Definition __le__ (self other : t) : result error bool :=
  r <- __lt__ other self ;; Ok (negb r).

Definition __ge__ (self other : t) : result error bool :=
  r <- __lt__ self other ;; Ok (negb r).

Definition __str__ (self : t) : str :=
  let vstr :=
    str_of_part (major self) ++ of_string "."
    ++ str_of_part (minor self) ++ of_string "."
    ++ str_of_part (patch self) in
  let vstr :=
    if negb (is_empty (suffix self))
    then vstr ++ of_string "-" ++ suffix self else vstr in
  if negb (is_empty (build self))
  then vstr ++ of_string "+" ++ build self else vstr.

End Unicode.

(** What [_parse] leaves in the attributes: [major] is a number, [minor]
    and [patch] are numbers or the empty string, none negative; the suffix
    has no plus sign; neither the suffix nor the build has a newline. *)
Definition number_or_empty (p : part) : Prop :=
  match p with
  | Num n => 0 <= n
  | Txt s => s = []
  end.

Definition parsed (v : t) : Prop :=
  (exists n, major v = Num n /\ 0 <= n)
  /\ number_or_empty (minor v)
  /\ number_or_empty (patch v)
  /\ ~ In 43%N (suffix v)
  /\ ~ In 10%N (suffix v)
  /\ ~ In 10%N (build v).

(** A version of three numbers and no suffix. *)
Definition release (v : t) (a b c : Z) : Prop :=
  major v = Num a /\ minor v = Num b /\ patch v = Num c /\ suffix v = [].



(** [(a, b, c) < (a', b', c')] for tuples of numbers. *)
Definition triple_ltb (x y : Z * Z * Z) : bool :=
  let '(a, b, c) := x in
  let '(a', b', c') := y in
  (a <? a') || ((a =? a') && ((b <? b') || ((b =? b') && (c <? c')))).

End Version.

(** ** Properties *)

Section Properties.

Set Default Proof Using "Type".

Variable Item : Type.
Variable Exc : Type.
Variable item_eqb : Item -> Item -> bool.
Variable item_lt : Item -> Item -> option bool.
Variable lower : str -> str.
Variable ci_eq : N -> N -> bool.
Variable fold_to_ascii : str -> str.
Variable diacritic_folding_setting : option bool.

Local Abbreviation filter_item := (_filter_item Exc lower ci_eq fold_to_ascii)
  (only parsing).
Local Abbreviation filter_ :=
  (filter Item Exc item_eqb item_lt lower ci_eq fold_to_ascii
     diacritic_folding_setting) (only parsing).
Local Abbreviation insert_ := (insert_sorted Item Exc item_eqb item_lt)
  (only parsing).
Local Abbreviation sort_onto_ := (sort_onto Item Exc item_eqb item_lt)
  (only parsing).
Local Abbreviation list_sort_ := (list_sort Item Exc item_eqb item_lt)
  (only parsing).
Local Abbreviation first_matching_ := (first_matching Exc lower ci_eq)
  (only parsing).
Local Abbreviation rule_alone_ := (rule_alone Exc lower ci_eq)
  (only parsing).
Local Abbreviation folded_ := (folded lower fold_to_ascii) (only parsing).
Local Abbreviation match_words_ :=
  (match_words Exc lower ci_eq fold_to_ascii) (only parsing).
Local Abbreviation match_items_ :=
  (match_items Item Exc lower ci_eq fold_to_ascii) (only parsing).

(** The folding flag [filter] passes on: the stored setting when there is
    one, the argument otherwise. *)
Definition folding_in_effect (fold_diacritics : bool) : bool :=
  match diacritic_folding_setting with
  | Some b => b
  | None => fold_diacritics
  end.

(** The words of a query, as [filter] computes them for each candidate. *)
Definition words_of (query : str) : list str :=
  map strip (split_space (strip query)).

(** [word] scores something other than zero against [value]. *)
Definition word_matches (match_on : Z) (fold_diacritics : bool)
    (value word : str) : Prop :=
  exists s r,
    filter_item value word match_on fold_diacritics = Ok (s, r)
    /\ nonzero s = true.

(** [item] has a search key that is not blank, and every word that is not
    empty scores something other than zero against it. *)
Definition every_word_matches (key : Item -> result Exc str)
    (match_on : Z) (fold_diacritics : bool) (words : list str)
    (item : Item) : Prop :=
  exists k,
    key item = Ok k
    /\ is_empty (strip k) = false
    /\ forall w, In w words -> is_empty w = false ->
                 word_matches match_on fold_diacritics (strip k) w.

(** No rule claims the word: the pre-filter rejects it, or the condition
    of every active rule fails. *)
Definition no_rule_matches (match_on : Z) (value query : str) : Prop :=
  prefilter lower value query = false
  \/ forall rl, active match_on rl = true ->
                rule_alone_ rl value query = None.

(** The first piece of a split, with [p] put in front of it. *)
Definition onto_first (p : str) (pieces : list str) : list str :=
  match pieces with
  | [] => [p]
  | w :: ws => (p ++ w) :: ws
  end.

Definition not_empty (s : str) : bool := negb (is_empty s).

(** [a] is not after [b] in the order of the sort keys. *)
Definition key_leP (a b : sort_key) : Prop :=
  let '(a1, a2, a3) := a in
  let '(b1, b2, b3) := b in
  (a1 < b1)%Q
  \/ ((a1 == b1)%Q
      /\ (str_ltb a2 b2 = true \/ (a2 = b2 /\ (a3 <= b3)%Q))).

Definition entry_le (a b : entry Item) : Prop := key_leP (fst a) (fst b).

(** A member of [results] as [filter] builds it: the key is made of the
    candidate's score and of its trimmed search key in lower case. *)
Definition entry_built (key : Item -> result Exc str) (e : entry Item)
  : Prop :=
  exists k r,
    key (fst (fst (snd e))) = Ok k
    /\ fst e = (r, lower (strip k), snd (fst (snd e)))
    /\ truediv (E := Exc) 100 (snd (fst (snd e))) = Ok r.

(** Two scored candidates in alphabetical order of their lowered trimmed
    keys, should their scores be equal. *)
Definition tie_in_order (key : Item -> result Exc str)
    (p q : scored Item) : Prop :=
  (snd (fst p) == snd (fst q))%Q ->
  exists kp kq,
    key (fst (fst p)) = Ok kp
    /\ key (fst (fst q)) = Ok kq
    /\ str_ltb (lower (strip kq)) (lower (strip kp)) = false.

(** An output cut by [[:n]]. *)
Definition slice_output (out : output Item) (n : Z) : output Item :=
  match out with
  | Items l => Items (slice_to l n)
  | Scored l => Scored (slice_to l n)
  end.

(** The scores and rules of the words of a query against one search key:
    one pair for each word that is not empty, in the order of the words. *)
Definition word_results (match_on : Z) (fold_diacritics : bool)
    (value : str) (words : list str) (srs : list score_and_rule) : Prop :=
  Forall2
    (fun w sr => filter_item value w match_on fold_diacritics = Ok sr)
    (List.filter not_empty words) srs.

(** The sum of the scores, added from the left starting from [0], and the
    rule of the last pair. *)
Definition total_score (srs : list score_and_rule) : Q :=
  fold_left (fun acc sr => (acc + fst sr)%Q) srs 0%Q.

Definition last_rule (srs : list score_and_rule) : option Z :=
  last (map snd srs) None.

(** The characters of [pattern] occur in [s] in the same order, each
    matched without regard to case. *)
Inductive occurs_in_order : str -> str -> Prop :=
| occurs_nil : forall s, occurs_in_order [] s
| occurs_skip : forall pattern x s,
    occurs_in_order pattern s -> occurs_in_order pattern (x :: s)
| occurs_take : forall c pattern x s,
    ci_eq c x = true -> occurs_in_order pattern s ->
    occurs_in_order (c :: pattern) (x :: s).

(** No character of [s] is a newline. *)
Definition one_line (s : str) : Prop := forall x, In x s -> x <> 10%N.

(** The candidates of an output, with or without their scores. *)
Definition items_of (out : output Item) : list Item :=
  match out with
  | Items l => l
  | Scored l => map (fun t => fst (fst t)) l
  end.

(** *** Results of the error monad *)

Lemma bind_ok {A B} (m : result Exc A) (k : A -> result Exc B) (b : B) :
  bind m k = Ok b -> exists a, m = Ok a /\ k a = Ok b.
Proof.
  destruct m as [a | e]; simpl; intros H.
  - exists a. split; [reflexivity | exact H].
  - discriminate H.
Qed.

(** *** Sorting keeps the members of the list *)

Lemma insert_sorted_in (x : entry Item) l l' :
  insert_ x l = Ok l' ->
  forall e, In e l' -> e = x \/ In e l.
Proof.
  revert l'. induction l as [| y l IH]; simpl; intros l' H e He.
  - injection H as <-. destruct He as [<- | []]. now left.
  - apply bind_ok in H. destruct H as [b [_ H]].
    destruct b.
    + injection H as <-. destruct He as [<- | He]; [now left | now right].
    + apply bind_ok in H. destruct H as [l'' [Hins H]].
      injection H as <-. destruct He as [<- | He].
      * right. now left.
      * destruct (IH _ Hins _ He) as [-> | Hin]; [now left | right; now right].
Qed.

Lemma sort_onto_in (l sorted l' : list (entry Item)) :
  sort_onto_ sorted l = Ok l' ->
  forall e, In e l' -> In e sorted \/ In e l.
Proof.
  revert sorted l'. induction l as [| x l IH]; simpl; intros sorted l' H e He.
  - injection H as <-. now left.
  - apply bind_ok in H. destruct H as [sorted' [Hins H]].
    destruct (IH _ _ H _ He) as [Hin | Hin].
    + destruct (insert_sorted_in _ _ _ Hins _ Hin) as [-> | Hin'].
      * right. now left.
      * now left.
    + right. now right.
Qed.

Lemma list_sort_in reverse (l l' : list (entry Item)) :
  list_sort_ reverse l = Ok l' ->
  forall e, In e l' -> In e l.
Proof.
  unfold list_sort. destruct reverse; intros H e He.
  - apply bind_ok in H. destruct H as [l'' [Hs H]]. injection H as <-.
    apply in_rev in He.
    destruct (sort_onto_in _ _ _ Hs _ He) as [[] | Hin].
    now apply in_rev.
  - destruct (sort_onto_in _ _ _ H _ He) as [[] | Hin]. exact Hin.
Qed.

Lemma slice_to_in {A} (l : list A) m x : In x (slice_to l m) -> In x l.
Proof.
  unfold slice_to. destruct (m <? 0); intros H;
    match type of H with
    | In _ (firstn ?n _) =>
        rewrite <- (firstn_skipn n l); apply in_or_app; left; exact H
    end.
Qed.

(** *** C3: a blank query returns the candidates as they are *)

(** C3. When the query is empty or consists of white space only, [filter]
    returns the sequence [items] it was given, unchanged and in order,
    whatever [key], [ascending], [include_score], [min_score],
    [max_results], [match_on] and [fold_diacritics] are. *)
Theorem filter_blank_query_returns_items :
  forall query items key ascending include_score min_score max_results
         match_on fold_diacritics,
    strip query = [] ->
    filter_ query items key ascending include_score min_score max_results
            match_on fold_diacritics = Ok (Items items).
Proof.
  intros query items key ascending include_score min_score max_results
         match_on fold_diacritics Hblank.
  unfold filter. destruct (is_empty query); [reflexivity |].
  rewrite Hblank. reflexivity.
Qed.


(** *** C1: a candidate is returned only when every word matches *)

Lemma match_words_all match_on fold value words :
  forall skip score rule score' rule',
    match_words_ match_on fold value words (skip, score, rule)
    = Ok (false, score', rule') ->
    skip = false
    /\ forall w, In w words -> is_empty w = false ->
                 word_matches match_on fold value w.
Proof.
  induction words as [| word words IH]; simpl; intros skip score rule score' rule' H.
  - injection H as -> _ _. split; [reflexivity | intros w []].
  - destruct (is_empty word) eqn:Hw.
    + destruct (IH _ _ _ _ _ H) as [Hs Hall]. split; [exact Hs |].
      intros w [<- | Hin] Hne; [congruence | now apply Hall].
    + apply bind_ok in H. destruct H as [[s r] [Hfi H]].
      destruct (IH _ _ _ _ _ H) as [Hs Hall].
      destruct (nonzero s) eqn:Hnz; simpl in Hs; [| discriminate Hs].
      split; [exact Hs |].
      intros w [<- | Hin] Hne; [| now apply Hall].
      exists s, r. split; [exact Hfi | exact Hnz].
Qed.

Lemma match_items_accepts key match_on fold query items :
  forall results results',
    match_items_ key match_on fold query items results = Ok results' ->
    forall e, In e results' ->
      In e results
      \/ (In (fst (fst (snd e))) items
          /\ every_word_matches key match_on fold
               (map strip (split_space query)) (fst (fst (snd e)))).
Proof.
  induction items as [| item items IH]; simpl; intros results results' H e He.
  - injection H as <-. now left.
  - apply bind_ok in H. destruct H as [k [Hk H]].
    assert (Hrest : forall rs, match_items_ key match_on fold query items rs
                               = Ok results' ->
                    In e rs \/
                    (In (fst (fst (snd e))) (item :: items)
                     /\ every_word_matches key match_on fold
                          (map strip (split_space query))
                          (fst (fst (snd e))))).
    { intros rs Hrs. destruct (IH _ _ Hrs _ He) as [Hin | [Hin Hall]].
      - now left.
      - right. split; [now right | exact Hall]. }
    destruct (is_empty (strip k)) eqn:Hv; [now apply Hrest |].
    apply bind_ok in H. destruct H as [[[skip score] rule] [Hw H]].
    destruct skip; [now apply Hrest |].
    destruct (nonzero score); [| now apply Hrest].
    apply bind_ok in H. destruct H as [r [_ H]].
    destruct (Hrest _ H) as [Hin | Hdone]; [| now right].
    apply in_app_or in Hin. destruct Hin as [Hin | [<- | []]]; [now left |].
    right. simpl. split; [now left |].
    exists k. split; [exact Hk |]. split; [exact Hv |].
    now destruct (match_words_all _ _ _ _ _ _ _ _ _ Hw) as [_ Hall].
Qed.

(** C1. For a query that is not blank, a candidate is in the output of
    [filter] only if it is one of [items], its trimmed search key is not
    empty, and every word of the query that is not empty scored something
    other than zero in [_filter_item] under [match_on]; so a candidate for
    which some word scores zero is not in the output. *)
Theorem filter_keeps_only_full_matches :
  forall query items key ascending include_score min_score max_results
         match_on fold_diacritics out,
    strip query <> [] ->
    filter_ query items key ascending include_score min_score max_results
            match_on fold_diacritics = Ok out ->
    (forall item, In item (items_of out) ->
       In item items
       /\ every_word_matches key match_on
            (folding_in_effect fold_diacritics) (words_of query) item)
    /\ (forall item k word s r,
          key item = Ok k ->
          In word (words_of query) -> is_empty word = false ->
          filter_item (strip k) word match_on
            (folding_in_effect fold_diacritics) = Ok (s, r) ->
          nonzero s = false ->
          ~ In item (items_of out)).
Proof.
  intros query items key ascending include_score min_score max_results
         match_on fold_diacritics out Hquery Hout.
  assert (Hmain : forall item, In item (items_of out) ->
            In item items
            /\ every_word_matches key match_on
                 (folding_in_effect fold_diacritics) (words_of query) item).
  { unfold filter in Hout.
    destruct (is_empty query) eqn:Hq.
    { destruct query; [now elim Hquery | discriminate Hq]. }
    destruct (is_empty (strip query)) eqn:Hq'.
    { destruct (strip query); [now elim Hquery | discriminate Hq']. }
    apply bind_ok in Hout. destruct Hout as [results [Hres Hout]].
    apply bind_ok in Hout. destruct Hout as [sorted [Hsort Hout]].
    assert (Hall : forall t, In t (map snd sorted) ->
              In (fst (fst t)) items
              /\ every_word_matches key match_on
                   (folding_in_effect fold_diacritics) (words_of query)
                   (fst (fst t))).
    { intros t Ht. apply in_map_iff in Ht. destruct Ht as [e [<- He]].
      apply (list_sort_in _ _ _ Hsort) in He.
      destruct (match_items_accepts _ _ _ _ _ _ _ Hres _ He) as [[] | Hok].
      exact Hok. }
    set (kept := if nonzero min_score then _ else _) in Hout.
    assert (Hkept : forall t, In t kept -> In t (map snd sorted)).
    { intros t. unfold kept. destruct (nonzero min_score); [| tauto].
      intros Ht. apply filter_In in Ht. tauto. }
    set (cut := if _ && _ then _ else _) in Hout.
    assert (Hcut : forall t, In t cut -> In t kept).
    { intros t. unfold cut. destruct (_ && _); [| tauto].
      apply slice_to_in. }
    intros item Hitem.
    assert (Ht : exists t, In t cut /\ fst (fst t) = item).
    { destruct include_score; injection Hout as <-; simpl in Hitem;
        apply in_map_iff in Hitem; destruct Hitem as [t [<- Ht]];
        exists t; split; auto. }
    destruct Ht as [t [Ht <-]]. apply Hall, Hkept, Hcut, Ht. }
  split; [exact Hmain |].
  intros item k word s r Hk Hword Hne Hscore Hzero Hin.
  destruct (Hmain _ Hin) as [_ [k' [Hk' [_ Hall]]]].
  rewrite Hk in Hk'. injection Hk' as <-.
  destruct (Hall _ Hword Hne) as [s' [r' [Hscore' Hnz]]].
  rewrite Hscore in Hscore'. injection Hscore' as <- <-. congruence.
Qed.

(** *** C2: the rules are tried in order *)

(** The sequence of tests of [_filter_item], with its shared local
    variables, is the walk of [first_matching] down [priority]. *)
Lemma filter_item_unfold :
  forall value word match_on fold_diacritics,
    filter_item value word match_on fold_diacritics
    = let query := lowered lower word in
      let value := folded_ value word fold_diacritics in
      if negb (prefilter lower value query) then Ok (0%Q, None)
      else first_matching_ priority match_on value query.
Proof.
  intros value word match_on fold_diacritics.
  unfold _filter_item, lowered, folded, prefilter.
  set (query := lower word).
  set (v := if (if negb (isascii query) then false else fold_diacritics)
            then fold_to_ascii value else value).
  cbv zeta.
  destruct (negb (set_le query (lower v))); [reflexivity |].
  unfold priority, first_matching, active, bit, rule_alone.
  destruct (truthy (Z.land match_on MATCH_STARTSWITH));
  destruct (truthy (Z.land match_on MATCH_CAPITALS));
  destruct (truthy (Z.land match_on MATCH_ATOM));
  destruct (truthy (Z.land match_on MATCH_INITIALS_STARTSWITH));
  destruct (truthy (Z.land match_on MATCH_INITIALS_CONTAIN));
  destruct (truthy (Z.land match_on MATCH_SUBSTRING));
  destruct (truthy (Z.land match_on MATCH_ALLCHARS));
  cbn [andb orb];
  repeat match goal with
         | |- context [if ?c then _ else _] => destruct c; try reflexivity
         end;
  try reflexivity.
  all: destruct (_search_for_query ci_eq query v) as [[? ?] |]; reflexivity.
Qed.

(** C2 (as amended). [_filter_item] lowers the word, folds the key when
    folding applies, and returns [(0, None)] if the pre-filter fails;
    otherwise it tries STARTSWITH, CAPITALS, ATOM, INITIALS_STARTSWITH,
    INITIALS_CONTAIN, SUBSTRING and ALLCHARS in this order and returns at
    the first active rule whose condition holds, with the score that rule
    computes; no later rule is tried. *)
Theorem filter_item_first_matching :
  forall value word match_on fold_diacritics,
    filter_item value word match_on fold_diacritics
    = let query := lowered lower word in
      let value := folded_ value word fold_diacritics in
      if negb (prefilter lower value query) then Ok (0%Q, None)
      else first_matching_ priority match_on value query.
Proof.
  exact filter_item_unfold.
Qed.

(** What [first_matching] returns: a rule of the list that is active and
    whose condition holds, with its score; or [(0, None)] when no active
    rule of the list has its condition hold. *)
Lemma first_matching_inv rules match_on value query s r :
  first_matching_ rules match_on value query = Ok (s, r) ->
  match r with
  | Some b =>
      exists rl, In rl rules /\ b = bit rl /\ active match_on rl = true
                 /\ rule_alone_ rl value query = Some (Ok s)
  | None =>
      s = 0%Q
      /\ forall rl, In rl rules -> active match_on rl = true ->
                    rule_alone_ rl value query = None
  end.
Proof.
  induction rules as [| rl rules IH]; simpl; intros H.
  - injection H as <- <-. split; [reflexivity | intros rl []].
  - assert (Hskip : first_matching_ rules match_on value query = Ok (s, r) ->
                    (active match_on rl = true ->
                     rule_alone_ rl value query = None) ->
                    match r with
                    | Some b =>
                        exists rl0, In rl0 (rl :: rules) /\ b = bit rl0
                                    /\ active match_on rl0 = true
                                    /\ rule_alone_ rl0 value query
                                       = Some (Ok s)
                    | None =>
                        s = 0%Q
                        /\ forall rl0, In rl0 (rl :: rules) ->
                                       active match_on rl0 = true ->
                                       rule_alone_ rl0 value query = None
                    end).
    { intros Hrest Hrl. specialize (IH Hrest). destruct r as [b |].
      - destruct IH as [rl0 [Hin Hrest']]. exists rl0. split; [now right | exact Hrest'].
      - destruct IH as [Hs Hnone]. split; [exact Hs |].
        intros rl0 [<- | Hin] Hact; [now apply Hrl | now apply Hnone]. }
    destruct (active match_on rl) eqn:Hact; [| apply Hskip; [exact H | discriminate]].
    destruct (rule_alone_ rl value query) as [sc |] eqn:Hsc;
      [| apply Hskip; [exact H | reflexivity]].
    apply bind_ok in H. destruct H as [score [-> H]]. injection H as <- <-.
    exists rl. repeat split; [now left | exact Hact | exact Hsc].
Qed.

(** *** C9: the rule returned lies in the mask *)

Lemma land_pow2 m k :
  0 <= k -> Z.land m (2 ^ k) = if Z.testbit m k then 2 ^ k else 0.
Proof.
  intros Hk. apply Z.bits_inj'. intros n Hn.
  rewrite Z.land_spec, Z.pow2_bits_eqb by exact Hk.
  destruct (Z.eqb_spec k n) as [<- | Hne].
  - destruct (Z.testbit m k); simpl.
    + rewrite Z.pow2_bits_eqb by exact Hk. now rewrite Z.eqb_refl.
    + now rewrite Z.bits_0.
  - rewrite andb_false_r. destruct (Z.testbit m k).
    + rewrite Z.pow2_bits_eqb by exact Hk.
      symmetry. now apply Z.eqb_neq.
    + now rewrite Z.bits_0.
Qed.

Lemma bit_pow2 rl : exists k, 0 <= k /\ bit rl = 2 ^ k.
Proof.
  destruct rl;
    [exists 0 | exists 1 | exists 2 | exists 3 | exists 4 | exists 5
     | exists 6]; split; (lia || reflexivity).
Qed.

Lemma active_land match_on rl :
  active match_on rl = true -> Z.land match_on (bit rl) = bit rl.
Proof.
  unfold active, truthy. destruct (bit_pow2 rl) as [k [Hk ->]].
  rewrite (land_pow2 match_on k Hk).
  destruct (Z.testbit match_on k); [reflexivity | discriminate].
Qed.

Lemma inactive_outside_all match_on rl :
  Z.land match_on MATCH_ALL = 0 -> active match_on rl = false.
Proof.
  intros H. unfold active, truthy.
  replace (bit rl) with (Z.land MATCH_ALL (bit rl))
    by (destruct rl; reflexivity).
  rewrite Z.land_assoc, H. reflexivity.
Qed.

Lemma first_matching_ext rules m m' value query :
  (forall rl, active m' rl = active m rl) ->
  first_matching_ rules m' value query = first_matching_ rules m value query.
Proof.
  intros H. induction rules as [| rl rules IH]; simpl; [reflexivity |].
  rewrite H, IH. reflexivity.
Qed.

Lemma first_matching_inactive rules m value query :
  (forall rl, active m rl = false) ->
  first_matching_ rules m value query = Ok (0%Q, None).
Proof.
  intros H. induction rules as [| rl rules IH]; simpl; [reflexivity |].
  now rewrite H.
Qed.

(** C9. The rule [_filter_item] returns is [None] or the bit of one of the
    seven rules, and that bit is set in [match_on]; the result depends on
    [match_on] only through which of the seven rules it makes active, so a
    rule whose bit is absent contributes nothing; and a mask with none of
    the seven bits set yields [(0, None)]. *)
Theorem filter_item_rule_in_mask :
  forall value word match_on fold_diacritics,
    (forall s r,
        filter_item value word match_on fold_diacritics = Ok (s, r) ->
        r = None
        \/ exists rl, r = Some (bit rl)
                      /\ Z.land match_on (bit rl) = bit rl)
    /\ (forall match_on',
          (forall rl, active match_on' rl = active match_on rl) ->
          filter_item value word match_on' fold_diacritics
          = filter_item value word match_on fold_diacritics)
    /\ (Z.land match_on MATCH_ALL = 0 ->
        filter_item value word match_on fold_diacritics = Ok (0%Q, None)).
Proof.
  intros value word match_on fold_diacritics. repeat split.
  - intros s r. rewrite filter_item_unfold. cbv zeta.
    destruct (negb _).
    + intros H. injection H as _ <-. now left.
    + intros H. apply first_matching_inv in H. destruct r as [b |]; [| now left].
      destruct H as [rl [_ [-> [Hact _]]]]. right. exists rl.
      split; [reflexivity | now apply active_land].
  - intros match_on' H. rewrite !filter_item_unfold. cbv zeta.
    destruct (negb _); [reflexivity | now apply first_matching_ext].
  - intros H. rewrite filter_item_unfold. cbv zeta.
    destruct (negb _); [reflexivity |].
    apply first_matching_inactive. intros rl.
    now apply inactive_outside_all.
Qed.

(** *** C5: the sign of a score *)

Lemma length_score_positive (base : Z) a b s :
  length_score Exc (inject_Z base) a b = Ok s ->
  len a < base * len b ->
  (0 < s)%Q.
Proof.
  unfold length_score, truediv. intros H Hlt.
  destruct (Qeq_bool (inject_Z (len b)) 0) eqn:Hb; [discriminate H |].
  simpl in H. injection H as <-.
  assert (Hpos : 0 < len b).
  { assert (len b <> 0).
    { intros E. rewrite E in Hb. discriminate Hb. }
    unfold len in *. lia. }
  apply (proj2 (Qlt_minus_iff _ _)).
  setoid_replace (inject_Z base - inject_Z (len a) / inject_Z (len b) + - 0)%Q
    with (inject_Z base - inject_Z (len a) / inject_Z (len b))%Q by ring.
  apply (proj1 (Qlt_minus_iff _ _)).
  apply Qlt_shift_div_r.
  - change 0%Q with (inject_Z 0). rewrite <- Zlt_Qlt. exact Hpos.
  - rewrite <- inject_Z_mult, <- Zlt_Qlt. exact Hlt.
Qed.

Lemma capitals_len value : len (capitals value) <= len value.
Proof.
  unfold len, capitals. apply inj_le, filter_length_le.
Qed.

Lemma split_at_length sep s : (length (split_at sep s) <= S (length s))%nat.
Proof.
  induction s as [| c s IH]; simpl; [lia |].
  destruct (sep c); simpl; [lia |].
  destruct (split_at sep s); simpl in *; lia.
Qed.

Lemma initials_of_length atoms :
  (length (initials_of atoms) <= length atoms)%nat.
Proof.
  induction atoms as [| a atoms IH]; simpl; [lia |].
  rewrite length_app. destruct a; simpl; lia.
Qed.

Lemma initials_len value :
  len (initials_of (atoms_of lower value)) <= len value + 1.
Proof.
  unfold len, atoms_of, split_on_delimiters.
  pose proof (initials_of_length (map lower (split_at is_delimiter value))) as H1.
  rewrite length_map in H1.
  pose proof (split_at_length is_delimiter value) as H2. lia.
Qed.

(** A match of the pattern ends at or after the place where it starts,
    and does not start before the place the search starts from. *)
Lemma search_from_span pattern s :
  forall start m_start m_end,
    search_from ci_eq pattern start s = Some (m_start, m_end) ->
    (start <= m_start <= m_end)%nat.
Proof.
  induction s as [| c s IH]; intros start m_start m_end; simpl.
  - destruct (match_here ci_eq pattern []); [| discriminate].
    intros H. injection H as <- <-. lia.
  - destruct (match_here ci_eq pattern (c :: s)).
    + intros H. injection H as <- <-. lia.
    + intros H. apply IH in H. lia.
Qed.

Lemma rule_alone_positive rl value query s :
  len value < 90 * len query ->
  rule_alone_ rl value query = Some (Ok s) ->
  (0 < s)%Q.
Proof.
  intros Hlen.
  assert (Hq : 0 < len query) by (unfold len in *; lia).
  pose proof (capitals_len value) as Hcap.
  pose proof (initials_len value) as Hini.
  destruct rl; unfold rule_alone.
  - destruct (startswith _ _); [| discriminate]. intros H. injection H as H.
    apply (length_score_positive 100) in H; [exact H | lia].
  - destruct (startswith _ _); [| discriminate]. intros H. injection H as H.
    apply (length_score_positive 100) in H; [exact H | lia].
  - destruct (str_in _ _); [| discriminate]. intros H. injection H as H.
    apply (length_score_positive 100) in H; [exact H | lia].
  - destruct (startswith _ _); [| discriminate]. intros H. injection H as H.
    apply (length_score_positive 100) in H; [exact H | lia].
  - destruct (contains _ _); [| discriminate]. intros H. injection H as H.
    apply (length_score_positive 95) in H; [exact H | lia].
  - destruct (contains _ _); [| discriminate]. intros H. injection H as H.
    apply (length_score_positive 90) in H; [exact H | lia].
  - destruct (_search_for_query ci_eq query value) as [[m_start m_end] |] eqn:Hs;
      [| discriminate].
    intros H. injection H as H.
    apply search_from_span in Hs.
    assert (Hpos : 0 < (1 + Z.of_nat m_start)
                       * (Z.of_nat m_end - Z.of_nat m_start + 1))
      by (apply Z.mul_pos_pos; lia).
    unfold truediv in H.
    destruct (Qeq_bool _ 0); [discriminate H |]. injection H as <-.
    apply Qlt_shift_div_l.
    + change 0%Q with (inject_Z 0). rewrite <- Zlt_Qlt. exact Hpos.
    + reflexivity.
Qed.

Lemma all_rules_in_priority rl : In rl priority.
Proof. destruct rl; simpl; tauto. Qed.

(** C5 (as amended). When the search key (folded, if folding applies) is
    shorter than 90 times the lowered word, the score [_filter_item]
    returns is not negative, and it is zero only with the rule [None], that
    is when the pre-filter rejects the word or no active rule's condition
    holds. *)
Theorem filter_item_score_sign :
  forall value word match_on fold_diacritics s r,
    len (folded_ value word fold_diacritics) < 90 * len (lowered lower word) ->
    filter_item value word match_on fold_diacritics = Ok (s, r) ->
    (0 <= s)%Q
    /\ ((s == 0)%Q ->
        r = None
        /\ no_rule_matches match_on (folded_ value word fold_diacritics)
             (lowered lower word)).
Proof.
  intros value word match_on fold_diacritics s r Hlen.
  rewrite filter_item_unfold. cbv zeta.
  destruct (prefilter lower _ _) eqn:Hpre; cbn [negb].
  - intros H. apply first_matching_inv in H. destruct r as [b |].
    + destruct H as [rl [_ [_ [_ Hrule]]]].
      apply (rule_alone_positive _ _ _ _ Hlen) in Hrule.
      split; [now apply Qlt_le_weak |].
      intros Hz. rewrite Hz in Hrule. now apply Qlt_irrefl in Hrule.
    + destruct H as [-> Hnone]. split; [apply Qle_refl |].
      intros _. split; [reflexivity |]. right.
      intros rl Hact. apply Hnone; [apply all_rules_in_priority | exact Hact].
  - intros H. injection H as <- <-. split; [apply Qle_refl |].
    intros _. split; [reflexivity |]. now left.
Qed.

(** *** C7: the ATOM rule *)

Lemma str_eqb_eq s t : str_eqb s t = true <-> s = t.
Proof.
  revert t. induction s as [| c s IH]; intros [| d t]; simpl.
  - split; reflexivity.
  - split; discriminate.
  - split; discriminate.
  - split.
    + intros H. apply andb_true_iff in H. destruct H as [Hc Hs].
      apply N.eqb_eq in Hc. apply IH in Hs. now subst.
    + intros H. injection H as -> ->. apply andb_true_iff.
      split; [apply N.eqb_refl | now apply IH].
Qed.

Lemma str_in_In x l : str_in x l = true <-> In x l.
Proof.
  unfold str_in. rewrite existsb_exists. split.
  - intros [y [Hin Heq]]. apply str_eqb_eq in Heq. now subst.
  - intros Hin. exists x. split; [exact Hin | now apply str_eqb_eq].
Qed.

(** The maximal runs are the pieces of the split that are not empty. *)
Lemma alnum_runs_split s :
  forall run,
    alnum_runs run s
    = List.filter not_empty (onto_first (rev run) (split_at is_delimiter s)).
Proof.
  induction s as [| c s IH]; intros run; simpl.
  - rewrite app_nil_r. destruct run as [| a run]; [reflexivity |].
    simpl. destruct (rev run); reflexivity.
  - destruct (is_delimiter c) eqn:Hc; simpl.
    + rewrite app_nil_r. rewrite (IH []). simpl.
      assert (Hid : onto_first [] (split_at is_delimiter s)
                    = split_at is_delimiter s).
      { destruct s as [| d s]; simpl; [reflexivity |].
        destruct (is_delimiter d); [reflexivity |].
        destruct (split_at is_delimiter s); reflexivity. }
      rewrite Hid.
      destruct run as [| a run]; [reflexivity |].
      simpl. destruct (rev run); reflexivity.
    + rewrite (IH (c :: run)). simpl.
      destruct (split_at is_delimiter s) as [| w ws] eqn:Hs.
      * destruct s as [| d s]; simpl in Hs; [discriminate Hs |].
        destruct (is_delimiter d); [discriminate Hs |].
        destruct (split_at is_delimiter s); discriminate Hs.
      * simpl. rewrite <- app_assoc. reflexivity.
Qed.

Lemma atoms_spec_atoms_of value query :
  lower [] = [] -> query <> [] ->
  (In query (atoms_spec lower value) <-> In query (atoms_of lower value)).
Proof.
  intros Hnil Hq. unfold atoms_spec, atoms_of, split_on_delimiters.
  rewrite alnum_runs_split. simpl.
  assert (Hid : onto_first [] (split_at is_delimiter value)
                = split_at is_delimiter value).
  { destruct value as [| d s]; simpl; [reflexivity |].
    destruct (is_delimiter d); [reflexivity |].
    destruct (split_at is_delimiter s); reflexivity. }
  rewrite Hid. split; intros H; apply in_map_iff in H;
    destruct H as [x [Hx Hin]]; apply in_map_iff; exists x.
  - apply filter_In in Hin. split; [exact Hx | apply Hin].
  - split; [exact Hx |].
    apply filter_In. split; [exact Hin |].
    destruct x; [| reflexivity]. rewrite Hnil in Hx. now elim Hq.
Qed.

(** C7. For a word that is not empty (already in lower case, as the rules
    receive it), the ATOM rule matches exactly when the word is one of the
    atoms of the key, the atoms being the maximal runs of the characters
    a-z, A-Z and 0-9 of the key, in lower case; and when it matches, its
    score is [100.0 - len(value) / len(word)]. *)
Theorem atom_rule_matches_atoms :
  forall value query,
    lower [] = [] ->
    query <> [] ->
    (In query (atoms_spec lower value) ->
     rule_alone_ ATOM value query
     = Some (Ok (100 - inject_Z (len value) / inject_Z (len query))%Q))
    /\ (~ In query (atoms_spec lower value) ->
        rule_alone_ ATOM value query = None).
Proof.
  intros value query Hnil Hq.
  pose proof (atoms_spec_atoms_of value query Hnil Hq) as Hiff.
  unfold rule_alone. split; intros H.
  - apply Hiff, str_in_In in H. rewrite H.
    unfold length_score, truediv.
    destruct query as [| c query]; [now elim Hq |]. reflexivity.
  - destruct (str_in query (atoms_of lower value)) eqn:Hin; [| reflexivity].
    apply str_in_In, Hiff in Hin. now elim H.
Qed.

(** *** Folding and the query's characters *)

(** When the lowered word has a character outside ASCII, [_filter_item]
    does not fold the key: the flag makes no difference. *)
Lemma filter_item_fold_irrelevant value word match_on :
  isascii (lower word) = false ->
  filter_item value word match_on true
  = filter_item value word match_on false.
Proof.
  intros H. unfold _filter_item. rewrite H. reflexivity.
Qed.

(** *** Errors raised by [key] *)

Lemma match_items_app key match_on fold query pre post :
  forall results,
    match_items_ key match_on fold query (pre ++ post) results
    = bind (match_items_ key match_on fold query pre results)
        (fun r => match_items_ key match_on fold query post r).
Proof.
  induction pre as [| item pre IH]; intros results; simpl; [reflexivity |].
  destruct (key item) as [k | e]; simpl; [| reflexivity].
  destruct (is_empty (strip k)); [apply IH |].
  destruct (match_words_ match_on fold (strip k)
              (map strip (split_space query)) (false, 0%Q, None))
    as [[[skip score] rule] | e]; simpl; [| reflexivity].
  destruct skip; [apply IH |].
  destruct (nonzero score); [| apply IH].
  destruct (truediv 100 score) as [r | e]; simpl; [apply IH | reflexivity].
Qed.

(** An exception raised by [key] on a candidate that is reached is the
    exception [filter] raises. *)
Lemma key_error_propagates :
  forall query pre item post key e results ascending include_score
         min_score max_results match_on fold_diacritics,
    strip query <> [] ->
    match_items_ key match_on (folding_in_effect fold_diacritics)
      (strip query) pre [] = Ok results ->
    key item = Raise e ->
    filter_ query (pre ++ item :: post) key ascending include_score
      min_score max_results match_on fold_diacritics = Raise e.
Proof.
  intros query pre item post key e results ascending include_score
         min_score max_results match_on fold_diacritics Hq Hpre Hkey.
  unfold filter.
  destruct (is_empty query) eqn:E.
  { destruct query; [now elim Hq | discriminate E]. }
  destruct (is_empty (strip query)) eqn:E'.
  { destruct (strip query); [now elim Hq | discriminate E']. }
  fold (folding_in_effect fold_diacritics).
  rewrite match_items_app, Hpre. simpl. rewrite Hkey. reflexivity.
Qed.

(** *** The order of the results

    With [ascending=False] the list is sorted on the keys from the least
    to the greatest, so that of two candidates with the same score the one
    whose lowered key comes first in the alphabet is returned first. *)

Lemma str_ltb_irrefl s : str_ltb s s = false.
Proof.
  induction s as [| c s IH]; simpl; [reflexivity |].
  now rewrite N.eqb_refl.
Qed.

Lemma str_ltb_trans a : forall b c,
  str_ltb a b = true -> str_ltb b c = true -> str_ltb a c = true.
Proof.
  induction a as [| x a IH]; intros [| y b] [| z c]; simpl; try discriminate;
    try reflexivity.
  destruct (N.eqb_spec x y) as [-> | Hxy].
  - destruct (N.eqb_spec y z) as [-> | Hyz]; [apply IH | intros _ H; exact H].
  - intros Hlt. apply N.ltb_lt in Hlt.
    destruct (N.eqb_spec y z) as [-> | Hyz].
    + intros _. destruct (N.eqb_spec x z); [lia | now apply N.ltb_lt].
    + intros Hlt'. apply N.ltb_lt in Hlt'.
      destruct (N.eqb_spec x z); [lia | apply N.ltb_lt; lia].
Qed.

Lemma str_ltb_total a : forall b,
  str_ltb a b = false -> str_ltb b a = false -> a = b.
Proof.
  induction a as [| x a IH]; intros [| y b]; simpl; try discriminate;
    [reflexivity |].
  rewrite (N.eqb_sym y x).
  destruct (N.eqb_spec x y) as [-> | Hxy].
  - intros H1 H2. f_equal. now apply IH.
  - intros H1 H2. apply N.ltb_ge in H1, H2. lia.
Qed.

Lemma Qlt_bool_false x y : Qlt_bool x y = false <-> (y <= x)%Q.
Proof.
  unfold Qlt_bool. rewrite negb_false_iff. apply Qle_bool_iff.
Qed.

Lemma key_ltb_false a b : key_ltb b a = false <-> key_leP a b.
Proof.
  destruct a as [[a1 a2] a3], b as [[b1 b2] b3]. unfold key_ltb, key_leP.
  destruct (Qeq_bool b1 a1) eqn:E1; simpl.
  - apply Qeq_bool_iff in E1.
    destruct (str_eqb b2 a2) eqn:E2; simpl.
    + apply str_eqb_eq in E2. subst b2.
      destruct (Qeq_bool b3 a3) eqn:E3; simpl.
      * apply Qeq_bool_iff in E3. split; [| reflexivity]. intros _. right.
        split; [now symmetry |]. right. split; [reflexivity |].
        rewrite E3. apply Qle_refl.
      * rewrite Qlt_bool_false. split.
        -- intros H. right. split; [now symmetry |]. right. now split.
        -- intros [H | [_ [H | [_ H]]]].
           ++ rewrite E1 in H. now apply Qlt_irrefl in H.
           ++ now rewrite str_ltb_irrefl in H.
           ++ exact H.
    + assert (Hne : a2 <> b2).
      { intros ->. rewrite (proj2 (str_eqb_eq b2 b2) eq_refl) in E2.
        discriminate E2. }
      split.
      * intros H. right. split; [now symmetry |]. left.
        destruct (str_ltb a2 b2) eqn:E; [reflexivity |].
        elim Hne. now apply str_ltb_total.
      * intros [H | [_ [H | [H _]]]].
        -- rewrite E1 in H. now apply Qlt_irrefl in H.
        -- destruct (str_ltb b2 a2) eqn:E; [| reflexivity].
           pose proof (str_ltb_trans _ _ _ H E) as Habs.
           now rewrite str_ltb_irrefl in Habs.
        -- now elim Hne.
  - assert (Hne : ~ (a1 == b1)%Q).
    { intros H. symmetry in H. apply Qeq_bool_iff in H. congruence. }
    rewrite Qlt_bool_false. split.
    + intros H. left. apply Qle_lteq in H.
      destruct H as [H | H]; [exact H | now elim Hne].
    + intros [H | [H _]]; [now apply Qlt_le_weak | now elim Hne].
Qed.

Lemma key_leP_trans a b c : key_leP a b -> key_leP b c -> key_leP a c.
Proof.
  destruct a as [[a1 a2] a3], b as [[b1 b2] b3], c as [[c1 c2] c3].
  unfold key_leP.
  intros [H1 | [E1 H1]] [H2 | [E2 H2]].
  - left. now apply Qlt_trans with b1.
  - left. now rewrite <- E2.
  - left. now rewrite E1.
  - right. split; [now rewrite E1 |].
    destruct H1 as [H1 | [-> H1]], H2 as [H2 | [-> H2]].
    + left. now apply str_ltb_trans with b2.
    + now left.
    + now left.
    + right. split; [reflexivity | now apply Qle_trans with b3].
Qed.

Lemma Qlt_bool_true x y : Qlt_bool x y = true -> (x < y)%Q.
Proof.
  unfold Qlt_bool. rewrite negb_true_iff. intros H.
  apply Qnot_le_lt. intros Hle. apply Qle_bool_iff in Hle. congruence.
Qed.

Lemma key_ltb_true_le a b : key_ltb a b = true -> key_leP a b.
Proof.
  destruct a as [[a1 a2] a3], b as [[b1 b2] b3]. unfold key_ltb, key_leP.
  destruct (Qeq_bool a1 b1) eqn:E1; simpl.
  - apply Qeq_bool_iff in E1. intros H. right. split; [exact E1 |].
    destruct (str_eqb a2 b2) eqn:E2; simpl in H; [| now left].
    apply str_eqb_eq in E2. right. split; [exact E2 |].
    destruct (Qeq_bool a3 b3); simpl in H; [discriminate H |].
    now apply Qlt_le_weak, Qlt_bool_true.
  - intros H. left. now apply Qlt_bool_true.
Qed.

Lemma key_eqb_le a b : key_eqb a b = true -> key_leP a b /\ key_leP b a.
Proof.
  destruct a as [[a1 a2] a3], b as [[b1 b2] b3]. unfold key_eqb, key_leP.
  intros H. apply andb_true_iff in H. destruct H as [H H3].
  apply andb_true_iff in H. destruct H as [H1 H2].
  apply Qeq_bool_iff in H1, H3. apply str_eqb_eq in H2. subst b2.
  split; right; (split; [try exact H1; now symmetry |]); right;
    (split; [reflexivity |]); rewrite H3; apply Qle_refl.
Qed.

Lemma entry_lt_true x y :
  entry_lt Item Exc item_eqb item_lt x y = Ok true -> entry_le x y.
Proof.
  unfold entry_lt, entry_le.
  destruct (key_eqb (fst x) (fst y)) eqn:E; cbn [negb].
  - intros _. exact (proj1 (key_eqb_le _ _ E)).
  - intros H. injection H as H. now apply key_ltb_true_le.
Qed.

Lemma entry_lt_false x y :
  entry_lt Item Exc item_eqb item_lt x y = Ok false -> entry_le y x.
Proof.
  unfold entry_lt, entry_le.
  destruct (key_eqb (fst x) (fst y)) eqn:E; cbn [negb].
  - intros _. exact (proj2 (key_eqb_le _ _ E)).
  - intros H. injection H as H. now apply key_ltb_false.
Qed.

Lemma insert_sorted_sorted x l :
  forall l',
    insert_ x l = Ok l' ->
    StronglySorted entry_le l -> StronglySorted entry_le l'.
Proof.
  induction l as [| y l IH]; simpl; intros l' H Hs.
  - injection H as <-. constructor; constructor.
  - apply bind_ok in H. destruct H as [b [Hb H]].
    apply StronglySorted_inv in Hs. destruct Hs as [Hs Hy].
    destruct b.
    + injection H as <-. apply entry_lt_true in Hb.
      constructor; [now constructor |].
      constructor; [exact Hb |].
      apply Forall_forall. intros z Hz.
      apply (proj1 (Forall_forall _ _) Hy) in Hz.
      unfold entry_le in *. now apply key_leP_trans with (fst y).
    + apply bind_ok in H. destruct H as [l'' [Hins H]]. injection H as <-.
      apply entry_lt_false in Hb.
      constructor; [now apply IH |].
      apply Forall_forall. intros z Hz.
      destruct (insert_sorted_in _ _ _ Hins _ Hz) as [-> | Hz'];
        [exact Hb |].
      now apply (proj1 (Forall_forall _ _) Hy).
Qed.

Lemma sort_onto_sorted l :
  forall sorted l',
    sort_onto_ sorted l = Ok l' ->
    StronglySorted entry_le sorted -> StronglySorted entry_le l'.
Proof.
  induction l as [| x l IH]; simpl; intros sorted l' H Hs.
  - now injection H as <-.
  - apply bind_ok in H. destruct H as [sorted' [Hins H]].
    apply (IH _ _ H). now apply (insert_sorted_sorted _ _ _ Hins).
Qed.

Lemma StronglySorted_filter {A} (R : A -> A -> Prop) p l :
  StronglySorted R l -> StronglySorted R (List.filter p l).
Proof.
  induction 1 as [| a l Hs IH Ha]; simpl; [constructor |].
  destruct (p a); [| exact IH].
  constructor; [exact IH |].
  apply Forall_forall. intros x Hx. apply filter_In in Hx.
  now apply (proj1 (Forall_forall _ _) Ha).
Qed.

Lemma StronglySorted_firstn {A} (R : A -> A -> Prop) n l :
  StronglySorted R l -> StronglySorted R (firstn n l).
Proof.
  intros Hs. revert n. induction Hs as [| a l Hs IH Ha]; intros [| n]; simpl;
    try constructor.
  - apply IH.
  - apply Forall_forall. intros x Hx.
    apply (proj1 (Forall_forall _ _) Ha).
    rewrite <- (firstn_skipn n l). apply in_or_app. now left.
Qed.

Lemma StronglySorted_map {A B} (R : A -> A -> Prop) (R' : B -> B -> Prop)
    (f : A -> B) l :
  (forall a b, In a l -> In b l -> R a b -> R' (f a) (f b)) ->
  StronglySorted R l -> StronglySorted R' (map f l).
Proof.
  intros Hf Hs. induction Hs as [| a l Hs IH Ha]; simpl; [constructor |].
  constructor.
  - apply IH. intros x y Hx Hy. apply Hf; now right.
  - apply Forall_forall. intros y Hy. apply in_map_iff in Hy.
    destruct Hy as [x [<- Hx]]. apply Hf; [now left | now right |].
    now apply (proj1 (Forall_forall _ _) Ha).
Qed.

Lemma StronglySorted_split {A} (R : A -> A -> Prop) l1 a l2 b l3 :
  StronglySorted R (l1 ++ a :: l2 ++ b :: l3) -> R a b.
Proof.
  induction l1 as [| x l1 IH]; simpl; intros Hs;
    apply StronglySorted_inv in Hs; destruct Hs as [Hs Ha].
  - apply (proj1 (Forall_forall _ _) Ha). apply in_or_app. right. now left.
  - now apply IH.
Qed.

Lemma match_items_built key match_on fold query items :
  forall results results',
    match_items_ key match_on fold query items results = Ok results' ->
    Forall (entry_built key) results -> Forall (entry_built key) results'.
Proof.
  induction items as [| item items IH]; simpl; intros results results' H Hb.
  - now injection H as <-.
  - apply bind_ok in H. destruct H as [k [Hk H]].
    destruct (is_empty (strip k)); [now apply (IH _ _ H) |].
    apply bind_ok in H. destruct H as [[[skip score] rule] [_ H]].
    destruct skip; [now apply (IH _ _ H) |].
    destruct (nonzero score); [| now apply (IH _ _ H)].
    apply bind_ok in H. destruct H as [r [Hr H]].
    apply (IH _ _ H). apply Forall_app. split; [exact Hb |].
    constructor; [| constructor].
    exists k, r. simpl. repeat split; assumption.
Qed.

Lemma built_entries_tie key (a b : entry Item) :
  entry_built key a -> entry_built key b -> entry_le a b ->
  tie_in_order key (snd a) (snd b).
Proof.
  intros [ka [ra [Hka [Ha Hra]]]] [kb [rb [Hkb [Hb Hrb]]]] Hle Hscore.
  exists ka, kb. split; [exact Hka |]. split; [exact Hkb |].
  unfold entry_le in Hle. rewrite Ha, Hb in Hle. unfold key_leP in Hle.
  unfold truediv in Hra, Hrb.
  destruct (Qeq_bool (snd (fst (snd a))) 0); [discriminate Hra |].
  destruct (Qeq_bool (snd (fst (snd b))) 0); [discriminate Hrb |].
  injection Hra as <-. injection Hrb as <-.
  destruct Hle as [Hlt | [_ [Hlt | [Heq _]]]].
  - rewrite Hscore in Hlt. now apply Qlt_irrefl in Hlt.
  - destruct (str_ltb (lower (strip kb)) (lower (strip ka))) eqn:E;
      [| reflexivity].
    pose proof (str_ltb_trans _ _ _ Hlt E) as Habs.
    now rewrite str_ltb_irrefl in Habs.
  - rewrite Heq. apply str_ltb_irrefl.
Qed.

(** With [ascending=False], of two returned candidates with the same score
    the one returned first does not come after the other in the order of
    the lowered trimmed search keys. *)
Lemma descending_ties_alphabetical :
  forall query items key min_score max_results match_on fold_diacritics
         l1 a l2 b l3,
    filter_ query items key false true min_score max_results match_on
            fold_diacritics = Ok (Scored (l1 ++ a :: l2 ++ b :: l3)) ->
    tie_in_order key a b.
Proof.
  intros query items key min_score max_results match_on fold_diacritics
         l1 a l2 b l3 Hout.
  unfold filter in Hout.
  destruct (is_empty query); [discriminate Hout |].
  destruct (is_empty (strip query)); [discriminate Hout |].
  apply bind_ok in Hout. destruct Hout as [results [Hres Hout]].
  apply bind_ok in Hout. destruct Hout as [sorted [Hsort Hout]].
  assert (Hbuilt : forall e, In e sorted -> entry_built key e).
  { intros e He. apply (list_sort_in _ _ _ Hsort) in He.
    assert (Hall : Forall (entry_built key) results)
      by (apply (match_items_built _ _ _ _ _ _ _ Hres); constructor).
    now apply (proj1 (Forall_forall _ _) Hall). }
  assert (Hs : StronglySorted (tie_in_order key) (map snd sorted)).
  { apply StronglySorted_map with (R := entry_le).
    - intros x y Hx Hy. apply built_entries_tie; now apply Hbuilt.
    - unfold list_sort in Hsort.
      apply (sort_onto_sorted _ _ _ Hsort). constructor. }
  set (kept := if nonzero min_score then _ else _) in Hout.
  assert (Hkept : StronglySorted (tie_in_order key) kept).
  { unfold kept. destruct (nonzero min_score); [| exact Hs].
    now apply StronglySorted_filter. }
  set (cut := if _ && _ then _ else _) in Hout.
  assert (Hcut : StronglySorted (tie_in_order key) cut).
  { unfold cut. destruct (_ && _); [| exact Hkept].
    unfold slice_to. destruct (max_results <? 0);
      now apply StronglySorted_firstn. }
  injection Hout as Hout. rewrite Hout in Hcut.
  now apply StronglySorted_split in Hcut.
Qed.

(** *** The words of the query *)

(** The loop over the words passes over the empty ones. *)
Lemma match_words_not_empty match_on fold value words :
  forall st,
    match_words_ match_on fold value words st
    = match_words_ match_on fold value (List.filter not_empty words) st.
Proof.
  induction words as [| w words IH]; intros st; simpl; [reflexivity |].
  unfold not_empty at 1. destruct (is_empty w) eqn:Hw; simpl.
  - apply IH.
  - rewrite Hw. destruct (filter_item value w match_on fold) as [[s r] | e];
      simpl; [| reflexivity].
    destruct st as [[skip score] rule]. apply IH.
Qed.

Lemma match_items_same_words key match_on fold query query' items :
  List.filter not_empty (map strip (split_space query))
  = List.filter not_empty (map strip (split_space query')) ->
  forall results,
    match_items_ key match_on fold query items results
    = match_items_ key match_on fold query' items results.
Proof.
  intros Hw. induction items as [| item items IH]; intros results; simpl;
    [reflexivity |].
  destruct (key item) as [k | e]; simpl; [| reflexivity].
  destruct (is_empty (strip k)); [apply IH |].
  rewrite (match_words_not_empty match_on fold (strip k)
             (map strip (split_space query))).
  rewrite (match_words_not_empty match_on fold (strip k)
             (map strip (split_space query'))).
  rewrite Hw.
  destruct (match_words_ match_on fold (strip k) _ _)
    as [[[skip score] rule] | e]; simpl; [| reflexivity].
  destruct skip; [apply IH |].
  destruct (nonzero score); [| apply IH].
  destruct (truediv 100 score); simpl; [apply IH | reflexivity].
Qed.

(** Two queries that are not blank and have the same words, the empty ones
    left out, give the same result: spaces added between, before or after
    the words change nothing. *)
Theorem filter_same_words :
  forall query query' items key ascending include_score min_score
         max_results match_on fold_diacritics,
    strip query <> [] ->
    strip query' <> [] ->
    List.filter not_empty (words_of query)
    = List.filter not_empty (words_of query') ->
    filter_ query items key ascending include_score min_score max_results
            match_on fold_diacritics
    = filter_ query' items key ascending include_score min_score max_results
              match_on fold_diacritics.
Proof.
  intros query query' items key ascending include_score min_score
         max_results match_on fold_diacritics Hq Hq' Hw.
  unfold filter.
  destruct (is_empty query) eqn:E.
  { destruct query; [now elim Hq | discriminate E]. }
  destruct (is_empty query') eqn:E'.
  { destruct query'; [now elim Hq' | discriminate E']. }
  destruct (is_empty (strip query)) eqn:F.
  { destruct (strip query); [now elim Hq | discriminate F]. }
  destruct (is_empty (strip query')) eqn:F'.
  { destruct (strip query'); [now elim Hq' | discriminate F']. }
  now rewrite (match_items_same_words key match_on _ (strip query)
                 (strip query') items Hw).
Qed.

(** *** [min_score], [max_results] and [include_score] *)

Lemma slice_to_all {A} (l : list A) n :
  (n <? Z.of_nat (length l)) = false -> 0 < n -> slice_to l n = l.
Proof.
  intros Hn Hpos. unfold slice_to. apply Z.ltb_ge in Hn.
  destruct (n <? 0) eqn:E; [apply Z.ltb_lt in E; lia |].
  apply firstn_all2. lia.
Qed.

Lemma slice_to_map {A B} (f : A -> B) (l : list A) n :
  slice_to (map f l) n = map f (slice_to l n).
Proof.
  unfold slice_to. rewrite length_map.
  destruct (n <? 0); apply firstn_map.
Qed.

Lemma slice_to_length {A} (l : list A) n :
  0 < n -> Z.of_nat (length (slice_to l n)) <= n.
Proof.
  intros Hn. unfold slice_to.
  destruct (n <? 0) eqn:E; [apply Z.ltb_lt in E; lia |].
  pose proof (firstn_le_length (Z.to_nat n) l).
  rewrite length_firstn. lia.
Qed.

(** With [max_results] other than zero the result is the result without a
    limit cut by [[:max_results]]: its first [max_results] members when the
    limit is positive. *)
Theorem filter_max_results_slices :
  forall query items key ascending include_score min_score max_results
         match_on fold_diacritics out,
    strip query <> [] ->
    max_results <> 0 ->
    filter_ query items key ascending include_score min_score 0
            match_on fold_diacritics = Ok out ->
    filter_ query items key ascending include_score min_score max_results
            match_on fold_diacritics = Ok (slice_output out max_results)
    /\ (0 < max_results ->
        Z.of_nat (length (items_of (slice_output out max_results)))
        <= max_results).
Proof.
  intros query items key ascending include_score min_score max_results
         match_on fold_diacritics out Hq Hmax Hout.
  split.
  - unfold filter in *.
    destruct (is_empty query) eqn:E.
    { destruct query; [now elim Hq | discriminate E]. }
    destruct (is_empty (strip query)) eqn:F.
    { destruct (strip query); [now elim Hq | discriminate F]. }
    destruct (match_items_ key match_on _ (strip query) items [])
      as [results | e]; simpl in *; [| discriminate Hout].
    destruct (list_sort_ ascending results) as [sorted | e]; simpl in *;
      [| discriminate Hout].
    set (kept := if nonzero min_score then _ else _) in *.
    assert (Ht : truthy max_results = true)
      by (unfold truthy; now apply negb_true_iff, Z.eqb_neq).
    rewrite Ht. simpl.
    assert (Hcut : (if max_results <? Z.of_nat (length kept)
                    then slice_to kept max_results else kept)
                   = slice_to kept max_results).
    { destruct (max_results <? Z.of_nat (length kept)) eqn:Hlt;
        [reflexivity |].
      symmetry. apply slice_to_all; [exact Hlt |].
      apply Z.ltb_ge in Hlt. lia. }
    rewrite Hcut.
    destruct include_score; injection Hout as <-; simpl;
      [reflexivity | now rewrite slice_to_map].
  - intros Hpos. destruct out as [l | l]; simpl.
    + now apply slice_to_length.
    + rewrite length_map. now apply slice_to_length.
Qed.

(** With [min_score] other than zero every score returned is greater than
    [min_score]; a score equal to it is left out. *)
Theorem filter_min_score_strict :
  forall query items key ascending min_score max_results match_on
         fold_diacritics l,
    ~ (min_score == 0)%Q ->
    filter_ query items key ascending true min_score max_results
            match_on fold_diacritics = Ok (Scored l) ->
    forall item score rule,
      In (item, score, rule) l -> (min_score < score)%Q.
Proof.
  intros query items key ascending min_score max_results match_on
         fold_diacritics l Hmin Hout item score rule Hin.
  unfold filter in Hout.
  destruct (is_empty query); [discriminate Hout |].
  destruct (is_empty (strip query)); [discriminate Hout |].
  apply bind_ok in Hout. destruct Hout as [results [_ Hout]].
  apply bind_ok in Hout. destruct Hout as [sorted [_ Hout]].
  assert (Hnz : nonzero min_score = true).
  { unfold nonzero. apply negb_true_iff.
    destruct (Qeq_bool min_score 0) eqn:E; [| reflexivity].
    apply Qeq_bool_iff in E. now elim Hmin. }
  rewrite Hnz in Hout.
  set (kept := List.filter _ _) in Hout.
  assert (Hk : In (item, score, rule) kept).
  { destruct (_ && _); injection Hout as <-;
      [now apply slice_to_in in Hin | exact Hin]. }
  apply filter_In in Hk. destruct Hk as [_ Hk]. simpl in Hk.
  now apply Qlt_bool_true.
Qed.

(** [include_score] changes neither which candidates are returned nor their
    order: the result without the scores is the result with the scores,
    each triple replaced by its candidate. *)
Theorem filter_include_score_same_candidates :
  forall query items key ascending min_score max_results match_on
         fold_diacritics out,
    filter_ query items key ascending true min_score max_results
            match_on fold_diacritics = Ok out ->
    filter_ query items key ascending false min_score max_results
            match_on fold_diacritics = Ok (Items (items_of out)).
Proof.
  intros query items key ascending min_score max_results match_on
         fold_diacritics out Hout.
  unfold filter in *.
  destruct (is_empty query); [now injection Hout as <- |].
  destruct (is_empty (strip query)); [now injection Hout as <- |].
  destruct (match_items_ key match_on _ (strip query) items [])
    as [results | e]; simpl in *; [| discriminate Hout].
  destruct (list_sort_ ascending results) as [sorted | e]; simpl in *;
    [| discriminate Hout].
  now injection Hout as <-.
Qed.

(** *** The candidates returned are candidates given *)

Lemma insert_sorted_perm (x : entry Item) l :
  forall l', insert_ x l = Ok l' -> Permutation l' (x :: l).
Proof.
  induction l as [| y l IH]; simpl; intros l' H.
  - now injection H as <-.
  - apply bind_ok in H. destruct H as [b [_ H]]. destruct b.
    + now injection H as <-.
    + apply bind_ok in H. destruct H as [l'' [Hins H]]. injection H as <-.
      rewrite (IH _ Hins). apply perm_swap.
Qed.

Lemma sort_onto_perm (l : list (entry Item)) :
  forall sorted l', sort_onto_ sorted l = Ok l' -> Permutation l' (sorted ++ l).
Proof.
  induction l as [| x l IH]; simpl; intros sorted l' H.
  - injection H as <-. now rewrite app_nil_r.
  - apply bind_ok in H. destruct H as [sorted' [Hins H]].
    rewrite (IH _ _ H), (insert_sorted_perm _ _ _ Hins).
    simpl. apply Permutation_middle.
Qed.

Lemma list_sort_perm reverse (l l' : list (entry Item)) :
  list_sort_ reverse l = Ok l' -> Permutation l' l.
Proof.
  unfold list_sort. destruct reverse; intros H.
  - apply bind_ok in H. destruct H as [l'' [Hs H]]. injection H as <-.
    apply sort_onto_perm in Hs. simpl in Hs.
    rewrite <- Permutation_rev, Hs. symmetry. apply Permutation_rev.
  - apply sort_onto_perm in H. exact H.
Qed.

Lemma match_items_perm key match_on fold query items :
  forall results results',
    match_items_ key match_on fold query items results = Ok results' ->
    exists dropped,
      Permutation
        (map (fun e => fst (fst (snd e))) results' ++ dropped)
        (map (fun e => fst (fst (snd e))) results ++ items).
Proof.
  induction items as [| item items IH]; simpl; intros results results' H.
  - injection H as <-. exists []. reflexivity.
  - apply bind_ok in H. destruct H as [k [_ H]].
    assert (Hdrop : match_items_ key match_on fold query items results
                    = Ok results' ->
                    exists dropped,
                      Permutation
                        (map (fun e => fst (fst (snd e))) results' ++ dropped)
                        (map (fun e => fst (fst (snd e))) results
                         ++ item :: items)).
    { intros Hrest. destruct (IH _ _ Hrest) as [dropped Hp].
      exists (item :: dropped).
      rewrite <- !Permutation_middle. now apply perm_skip. }
    destruct (is_empty (strip k)); [now apply Hdrop |].
    apply bind_ok in H. destruct H as [[[skip score] rule] [_ H]].
    destruct skip; [now apply Hdrop |].
    destruct (nonzero score); [| now apply Hdrop].
    apply bind_ok in H. destruct H as [r [_ H]].
    destruct (IH _ _ H) as [dropped Hp]. exists dropped.
    rewrite Hp, map_app. simpl. now rewrite <- app_assoc.
Qed.

Lemma filter_partition_perm {A} (p : A -> bool) (l : list A) :
  Permutation (List.filter p l ++ List.filter (fun x => negb (p x)) l) l.
Proof.
  induction l as [| a l IH]; simpl; [reflexivity |].
  destruct (p a); simpl.
  - now apply perm_skip.
  - rewrite <- Permutation_middle. now apply perm_skip.
Qed.

(** [filter] returns each candidate at most as many times as it is given:
    the candidates returned, together with some that were dropped, are the
    candidates given, in another order. *)
Theorem filter_returns_part_of_items :
  forall query items key ascending include_score min_score max_results
         match_on fold_diacritics out,
    filter_ query items key ascending include_score min_score max_results
            match_on fold_diacritics = Ok out ->
    exists dropped, Permutation (items_of out ++ dropped) items.
Proof.
  intros query items key ascending include_score min_score max_results
         match_on fold_diacritics out Hout.
  unfold filter in Hout.
  destruct (is_empty query).
  { injection Hout as <-. exists []. simpl. now rewrite app_nil_r. }
  destruct (is_empty (strip query)).
  { injection Hout as <-. exists []. simpl. now rewrite app_nil_r. }
  apply bind_ok in Hout. destruct Hout as [results [Hres Hout]].
  apply bind_ok in Hout. destruct Hout as [sorted [Hsort Hout]].
  apply match_items_perm in Hres. destruct Hres as [d1 Hres]. simpl in Hres.
  apply list_sort_perm in Hsort.
  set (item_of := fun t : scored Item => fst (fst t)).
  set (kept := if nonzero min_score then _ else _) in Hout.
  assert (Hkept : exists d2, Permutation (kept ++ d2) (map snd sorted)).
  { unfold kept. destruct (nonzero min_score).
    - eexists. apply filter_partition_perm.
    - exists []. now rewrite app_nil_r. }
  destruct Hkept as [d2 Hkept].
  set (cut := if _ && _ then _ else _) in Hout.
  assert (Hcut : exists d3, Permutation (cut ++ d3) kept).
  { unfold cut. destruct (_ && _).
    - unfold slice_to. destruct (max_results <? 0);
        eexists; rewrite firstn_skipn; reflexivity.
    - exists []. now rewrite app_nil_r. }
  destruct Hcut as [d3 Hcut].
  assert (Hitems : items_of out = map item_of cut).
  { destruct include_score; injection Hout as <-; reflexivity. }
  exists (map item_of d3 ++ map item_of d2 ++ d1).
  rewrite Hitems, app_assoc, <- map_app, Hcut.
  rewrite app_assoc, <- map_app, Hkept.
  rewrite map_map. unfold item_of.
  rewrite <- Hres.
  apply Permutation_app_tail. apply Permutation_map. exact Hsort.
Qed.

(** *** The score and the rule of a candidate *)

Lemma last_cons {A} (l : list A) :
  forall x d, last (x :: l) d = last l x.
Proof.
  induction l as [| y l IH]; intros x d; [reflexivity |].
  change (last (x :: y :: l) d) with (last (y :: l) d).
  now rewrite !IH.
Qed.

Lemma match_words_results match_on fold value words :
  forall skip0 score0 rule0 skip score rule,
    match_words_ match_on fold value words (skip0, score0, rule0)
    = Ok (skip, score, rule) ->
    exists srs,
      word_results match_on fold value words srs
      /\ score = fold_left (fun acc sr => (acc + fst sr)%Q) srs score0
      /\ rule = last (map snd srs) rule0.
Proof.
  unfold word_results.
  induction words as [| w words IH]; simpl;
    intros skip0 score0 rule0 skip score rule H.
  - injection H as _ <- <-. exists []. repeat split. constructor.
  - unfold not_empty at 1. destruct (is_empty w); simpl.
    + now apply (IH _ _ _ _ _ _ H).
    + apply bind_ok in H. destruct H as [[s r] [Hfi H]].
      destruct (IH _ _ _ _ _ _ H) as [srs [Hall [Hscore Hrule]]].
      exists ((s, r) :: srs). split; [now constructor |].
      split; [exact Hscore |].
      rewrite Hrule. simpl map. now rewrite last_cons.
Qed.

Lemma match_items_scores key match_on fold query items :
  forall results results',
    match_items_ key match_on fold query items results = Ok results' ->
    forall e, In e results' ->
      In e results
      \/ exists k srs,
           key (fst (fst (snd e))) = Ok k
           /\ word_results match_on fold (strip k)
                (map strip (split_space query)) srs
           /\ snd (fst (snd e)) = total_score srs
           /\ snd (snd e) = last_rule srs.
Proof.
  induction items as [| item items IH]; simpl; intros results results' H e He.
  - injection H as <-. now left.
  - apply bind_ok in H. destruct H as [k [Hk H]].
    destruct (is_empty (strip k)); [now apply (IH _ _ H) |].
    apply bind_ok in H. destruct H as [[[skip score] rule] [Hw H]].
    destruct skip; [now apply (IH _ _ H) |].
    destruct (nonzero score); [| now apply (IH _ _ H)].
    apply bind_ok in H. destruct H as [r [_ H]].
    destruct (IH _ _ H _ He) as [Hin | Hdone]; [| now right].
    apply in_app_or in Hin. destruct Hin as [Hin | [<- | []]]; [now left |].
    right. simpl.
    destruct (match_words_results _ _ _ _ _ _ _ _ _ _ Hw)
      as [srs [Hall [Hscore Hrule]]].
    exists k, srs. repeat split; assumption.
Qed.

(** The score returned with a candidate is the sum of the scores of the
    words of the query that are not empty, and the rule returned with it is
    the rule of the last of these words. *)
Theorem filter_score_is_sum_and_rule_is_last :
  forall query items key ascending min_score max_results match_on
         fold_diacritics l item score rule,
    filter_ query items key ascending true min_score max_results
            match_on fold_diacritics = Ok (Scored l) ->
    In (item, score, rule) l ->
    exists k srs,
      key item = Ok k
      /\ word_results match_on (folding_in_effect fold_diacritics)
           (strip k) (words_of query) srs
      /\ score = total_score srs
      /\ rule = last_rule srs.
Proof.
  intros query items key ascending min_score max_results match_on
         fold_diacritics l item score rule Hout Hin.
  unfold filter in Hout.
  destruct (is_empty query); [discriminate Hout |].
  destruct (is_empty (strip query)); [discriminate Hout |].
  apply bind_ok in Hout. destruct Hout as [results [Hres Hout]].
  apply bind_ok in Hout. destruct Hout as [sorted [Hsort Hout]].
  set (kept := if nonzero min_score then _ else _) in Hout.
  assert (Hk : In (item, score, rule) kept).
  { destruct (_ && _); injection Hout as <-;
      [now apply slice_to_in in Hin | exact Hin]. }
  assert (Hs : In (item, score, rule) (map snd sorted)).
  { unfold kept in Hk. destruct (nonzero min_score); [| exact Hk].
    apply filter_In in Hk. apply Hk. }
  apply in_map_iff in Hs. destruct Hs as [e [He Hs]].
  apply (list_sort_in _ _ _ Hsort) in Hs.
  destruct (match_items_scores _ _ _ _ _ _ _ Hres _ Hs) as [[] | Hok].
  rewrite He in Hok. exact Hok.
Qed.

(** *** When [filter] raises nothing *)

Lemma length_score_ok base a b :
  b <> [] -> exists s, length_score Exc base a b = Ok s.
Proof.
  intros Hb. unfold length_score, truediv.
  destruct b as [| c b]; [now elim Hb |].
  eexists. reflexivity.
Qed.

Lemma rule_alone_ok rl value query sc :
  query <> [] ->
  rule_alone_ rl value query = Some sc -> exists s, sc = Ok s.
Proof.
  intros Hq. destruct rl; unfold rule_alone.
  1-6: match goal with
       | |- (if ?c then _ else _) = _ -> _ =>
           destruct c; [| discriminate]; intros H; injection H as <-;
           now apply length_score_ok
       end.
  destruct (_search_for_query ci_eq query value) as [[m_start m_end] |] eqn:Hs;
    [| discriminate].
  apply search_from_span in Hs.
  set (d := (1 + Z.of_nat m_start)
            * (Z.of_nat m_end - Z.of_nat m_start + 1)).
  assert (Hpos : 0 < d) by (unfold d; apply Z.mul_pos_pos; lia).
  clearbody d. intros H. injection H as <-.
  unfold truediv.
  destruct (Qeq_bool (inject_Z _) 0) eqn:E; [| eexists; reflexivity].
  apply Qeq_bool_iff in E. unfold Qeq, inject_Z in E.
  cbn [Qnum Qden] in E. lia.
Qed.

Lemma first_matching_ok rules match_on value query :
  query <> [] ->
  exists sr, first_matching_ rules match_on value query = Ok sr.
Proof.
  intros Hq. induction rules as [| rl rules IH]; simpl;
    [eexists; reflexivity |].
  destruct (active match_on rl); [| exact IH].
  destruct (rule_alone_ rl value query) as [sc |] eqn:Hsc; [| exact IH].
  destruct (rule_alone_ok _ _ _ _ Hq Hsc) as [s ->].
  eexists. reflexivity.
Qed.

(** [_filter_item] raises nothing when the word in lower case is not
    empty. *)
Lemma filter_item_ok value word match_on fold :
  lower word <> [] ->
  exists sr, filter_item value word match_on fold = Ok sr.
Proof.
  intros Hw. rewrite filter_item_unfold. cbv zeta.
  destruct (negb _); [eexists; reflexivity |].
  now apply first_matching_ok.
Qed.

(** A score other than zero comes with a rule. *)
Lemma filter_item_nonzero_rule value word match_on fold s r :
  filter_item value word match_on fold = Ok (s, r) ->
  nonzero s = true -> r <> None.
Proof.
  rewrite filter_item_unfold. cbv zeta.
  destruct (negb _).
  - intros H. injection H as <- _. discriminate.
  - intros H Hnz ->. apply first_matching_inv in H.
    destruct H as [-> _]. discriminate Hnz.
Qed.

Lemma match_words_ok match_on fold value words :
  (forall w, w <> [] -> lower w <> []) ->
  forall skip score rule,
    skip = true \/ rule <> None \/ score = 0%Q ->
    exists skip' score' rule',
      match_words_ match_on fold value words (skip, score, rule)
      = Ok (skip', score', rule')
      /\ (skip' = true \/ rule' <> None \/ score' = 0%Q).
Proof.
  intros Hlower.
  induction words as [| w words IH]; simpl; intros skip score rule Hst.
  - exists skip, score, rule. split; [reflexivity | exact Hst].
  - destruct (is_empty w) eqn:Hw; [now apply IH |].
    assert (Hne : w <> []) by (intros ->; discriminate Hw).
    destruct (filter_item_ok value w match_on fold (Hlower _ Hne))
      as [[s r] Hfi].
    rewrite Hfi. simpl. apply IH.
    destruct (nonzero s) eqn:Hnz; simpl; [| now left].
    right. left. now apply (filter_item_nonzero_rule _ _ _ _ _ _ Hfi).
Qed.

Lemma match_items_ok key match_on fold query items :
  (forall w, w <> [] -> lower w <> []) ->
  (forall item, In item items -> exists k, key item = Ok k) ->
  forall results,
    exists results',
      match_items_ key match_on fold query items results = Ok results'
      /\ forall e, In e results' ->
           In e results
           \/ (In (fst (fst (snd e))) items /\ snd (snd e) <> None).
Proof.
  intros Hlower. induction items as [| item items IH]; intros Hkey results.
  - exists results. split; [reflexivity | now left].
  - simpl. destruct (Hkey item (or_introl eq_refl)) as [k Hk].
    rewrite Hk. simpl.
    assert (Hrest : forall rs,
              (forall e, In e rs ->
                 In e results
                 \/ (In (fst (fst (snd e))) (item :: items)
                     /\ snd (snd e) <> None)) ->
              exists results',
                match_items_ key match_on fold query items rs = Ok results'
                /\ forall e, In e results' ->
                     In e results
                     \/ (In (fst (fst (snd e))) (item :: items)
                         /\ snd (snd e) <> None)).
    { intros rs Hrs.
      destruct (IH (fun it Hit => Hkey it (or_intror Hit)) rs)
        as [results' [Hok Hin]].
      exists results'. split; [exact Hok |].
      intros e He. destruct (Hin _ He) as [Hrs' | [Hit Hr]].
      - now apply Hrs.
      - right. split; [now right | exact Hr]. }
    destruct (is_empty (strip k)); [apply Hrest; now left |].
    destruct (match_words_ok match_on fold (strip k)
                (map strip (split_space query)) Hlower false 0%Q None)
      as [skip [score [rule [Hw Hst]]]]; [now right; right |].
    rewrite Hw. simpl.
    destruct skip; [apply Hrest; now left |].
    destruct (nonzero score) eqn:Hnz; [| apply Hrest; now left].
    unfold truediv. unfold nonzero in Hnz. apply negb_true_iff in Hnz.
    rewrite Hnz. simpl. apply Hrest.
    intros e He. apply in_app_or in He. destruct He as [He | [<- | []]].
    + now left.
    + right. simpl. split; [now left |].
      destruct Hst as [Hst | [Hst | Hst]]; [discriminate Hst | exact Hst |].
      subst score. discriminate Hnz.
Qed.

(** Two members of [results] whose rules are set and whose candidates [<]
    can compare are compared without an exception. *)
Lemma entry_lt_ok (a b : entry Item) :
  snd (snd a) <> None -> snd (snd b) <> None ->
  item_lt (fst (fst (snd a))) (fst (fst (snd b))) <> None ->
  exists r, entry_lt Item Exc item_eqb item_lt a b = Ok r.
Proof.
  destruct a as [ka [[ai asc] ar]], b as [kb [[bi bsc] br]]. simpl.
  intros Ha Hb Hlt. unfold entry_lt. simpl.
  destruct (negb (key_eqb ka kb)); [eexists; reflexivity |].
  destruct (negb (item_eqb ai bi && Qeq_bool asc bsc && rule_eqb ar br));
    [| eexists; reflexivity].
  destruct (negb (item_eqb ai bi)).
  - destruct (item_lt ai bi); [eexists; reflexivity | now elim Hlt].
  - destruct (negb (Qeq_bool asc bsc)); [eexists; reflexivity |].
    destruct (negb (rule_eqb ar br)); [| eexists; reflexivity].
    destruct ar; [| now elim Ha]. destruct br; [| now elim Hb].
    eexists. reflexivity.
Qed.

Section Comparable.

(** The candidates that can be compared with one another. *)
Variable comparable : entry Item -> Prop.
Hypothesis comparable_lt :
  forall a b, comparable a -> comparable b ->
    exists r, entry_lt Item Exc item_eqb item_lt a b = Ok r.

Lemma insert_sorted_ok x l :
  comparable x -> (forall e, In e l -> comparable e) ->
  exists l', insert_ x l = Ok l'.
Proof using Type comparable_lt.
  intros Hx. induction l as [| y l IH]; simpl; intros Hl;
    [eexists; reflexivity |].
  destruct (comparable_lt x y Hx (Hl y (or_introl eq_refl))) as [b ->].
  simpl. destruct b; [eexists; reflexivity |].
  destruct (IH (fun e He => Hl e (or_intror He))) as [l'' ->].
  eexists. reflexivity.
Qed.

Lemma sort_onto_ok l :
  forall sorted,
    (forall e, In e sorted -> comparable e) ->
    (forall e, In e l -> comparable e) ->
    exists l', sort_onto_ sorted l = Ok l'.
Proof using Type comparable_lt.
  induction l as [| x l IH]; simpl; intros sorted Hs Hl;
    [eexists; reflexivity |].
  destruct (insert_sorted_ok x sorted (Hl x (or_introl eq_refl)) Hs)
    as [sorted' Hins].
  rewrite Hins. simpl. apply IH.
  - intros e He. destruct (insert_sorted_in _ _ _ Hins _ He) as [-> | Hin].
    + apply Hl. now left.
    + now apply Hs.
  - intros e He. apply Hl. now right.
Qed.

Lemma list_sort_ok reverse l :
  (forall e, In e l -> comparable e) ->
  exists l', list_sort_ reverse l = Ok l'.
Proof using Type comparable_lt.
  intros Hl. unfold list_sort. destruct reverse.
  - destruct (sort_onto_ok (rev l) []) as [l' ->].
    + intros e [].
    + intros e He. apply Hl. now apply in_rev.
    + eexists. reflexivity.
  - apply sort_onto_ok; [intros e [] | exact Hl].
Qed.

End Comparable.

(** [filter] raises nothing when [key] returns a string for every
    candidate, [<] compares any two of the candidates, and no word that is
    not empty has an empty lower case. *)
Theorem filter_raises_nothing :
  forall query items key ascending include_score min_score max_results
         match_on fold_diacritics,
    (forall w, w <> [] -> lower w <> []) ->
    (forall item, In item items -> exists k, key item = Ok k) ->
    (forall a b, In a items -> In b items -> item_lt a b <> None) ->
    exists out,
      filter_ query items key ascending include_score min_score max_results
              match_on fold_diacritics = Ok out.
Proof.
  intros query items key ascending include_score min_score max_results
         match_on fold_diacritics Hlower Hkey Hlt.
  unfold filter.
  destruct (is_empty query); [eexists; reflexivity |].
  destruct (is_empty (strip query)); [eexists; reflexivity |].
  destruct (match_items_ok key match_on
              (match diacritic_folding_setting with
               | Some b => b
               | None => fold_diacritics
               end) (strip query) items Hlower Hkey [])
    as [results [Hres Hin]].
  rewrite Hres. simpl.
  destruct (list_sort_ok
              (fun e => In (fst (fst (snd e))) items /\ snd (snd e) <> None)
              (fun a b Ha Hb =>
                 entry_lt_ok a b (proj2 Ha) (proj2 Hb)
                   (Hlt _ _ (proj1 Ha) (proj1 Hb)))
              ascending results) as [sorted Hsort].
  { intros e He. destruct (Hin _ He) as [[] | Hok]. exact Hok. }
  rewrite Hsort. simpl.
  destruct include_score; eexists; reflexivity.
Qed.

(** *** The search of [_search_for_query] *)

(** A match found one character further on is also found here, unless the
    character here is a newline. *)
Lemma match_here_further c pattern x s n :
  match_here ci_eq (c :: pattern) s = Some n ->
  x <> 10%N ->
  exists m, match_here ci_eq (c :: pattern) (x :: s) = Some m.
Proof.
  intros Hs Hx. simpl in *.
  destruct (if ci_eq c x then match_here ci_eq pattern s else None);
    [eexists; reflexivity |].
  destruct (N.eqb_spec x 10) as [-> | _]; [now elim Hx |].
  rewrite Hs. eexists. reflexivity.
Qed.

Lemma match_here_length pattern :
  forall s n,
    match_here ci_eq pattern s = Some n ->
    (length pattern <= n <= length s)%nat.
Proof.
  induction pattern as [| c pattern IH]; simpl.
  - intros s n H. injection H as <-. lia.
  - intros s. induction s as [| x s IHs]; simpl; intros n H;
      [discriminate H |].
    destruct (if ci_eq c x then match_here ci_eq pattern s else None)
      as [k |] eqn:Hk.
    + injection H as <-. destruct (ci_eq c x); [| discriminate Hk].
      apply IH in Hk. lia.
    + destruct (x =? 10)%N; [discriminate H |].
      destruct (lazy_then ci_eq c (match_here ci_eq pattern) s) as [k |];
        [| discriminate H].
      injection H as <-. specialize (IHs k eq_refl). lia.
Qed.

Lemma search_from_at_start pattern s start m_end :
  search_from ci_eq pattern start s = Some (start, m_end) ->
  exists n, match_here ci_eq pattern s = Some n.
Proof.
  destruct s as [| x s]; simpl;
    destruct (match_here ci_eq pattern _) as [n |];
    try (intros _; eexists; reflexivity); [discriminate |].
  intros H. apply search_from_span in H. lia.
Qed.

Lemma search_from_found pattern s :
  forall start m_start m_end,
    search_from ci_eq pattern start s = Some (m_start, m_end) ->
    (start <= m_start)%nat
    /\ (m_start + length pattern <= m_end <= start + length s)%nat
    /\ (m_start = start
        \/ nth_error s (m_start - start - 1) = Some 10%N).
Proof.
  induction s as [| x s IH]; intros start m_start m_end; simpl.
  - destruct (match_here ci_eq pattern []) as [n |] eqn:Hn; [| discriminate].
    intros H. injection H as <- <-. apply match_here_length in Hn.
    simpl in Hn. repeat split; try lia; now left.
  - destruct (match_here ci_eq pattern (x :: s)) as [n |] eqn:Hn.
    + intros H. injection H as <- <-. apply match_here_length in Hn.
      simpl in Hn. repeat split; try lia; now left.
    + intros H. pose proof H as H'. apply IH in H.
      destruct H as [Hle [Hspan Hstart]]. repeat split; try lia.
      right. destruct (Nat.eq_dec m_start (S start)) as [-> | Hne].
      * replace (S start - start - 1)%nat with O by lia. simpl.
        destruct pattern as [| c pattern]; [discriminate Hn |].
        destruct (search_from_at_start _ _ _ _ H') as [k Hk].
        destruct (N.eq_dec x 10) as [-> | Hx]; [reflexivity |].
        destruct (match_here_further c pattern x s k Hk Hx) as [m Hm].
        rewrite Hm in Hn. discriminate Hn.
      * destruct Hstart as [-> | Hnl]; [now elim Hne |].
        replace (m_start - start - 1)%nat with (S (m_start - S start - 1))
          by lia.
        exact Hnl.
Qed.

(** The match [_search_for_query] finds is at least as long as the query
    and lies within the key, and it starts at the beginning of the key or
    just after a newline; so in a key of one line it starts at 0. *)
Theorem search_for_query_span :
  forall query value m_start m_end,
    _search_for_query ci_eq query value = Some (m_start, m_end) ->
    (m_start + length query <= m_end <= length value)%nat
    /\ (m_start = 0%nat \/ nth_error value (m_start - 1) = Some 10%N)
    /\ (one_line value -> m_start = 0%nat).
Proof.
  intros query value m_start m_end H. unfold _search_for_query in H.
  apply search_from_found in H. destruct H as [_ [Hspan Hstart]].
  simpl in Hspan. split; [exact Hspan |].
  rewrite Nat.sub_0_r in Hstart. split; [exact Hstart |].
  intros Hline. destruct Hstart as [-> | Hnl]; [reflexivity |].
  apply nth_error_In in Hnl. now elim (Hline _ Hnl).
Qed.

Lemma match_here_occurs pattern :
  forall s n, match_here ci_eq pattern s = Some n -> occurs_in_order pattern s.
Proof.
  induction pattern as [| c pattern IH]; simpl; [constructor |].
  intros s. induction s as [| x s IHs]; simpl; intros n H;
    [discriminate H |].
  destruct (ci_eq c x) eqn:Hc.
  - destruct (match_here ci_eq pattern s) as [k |] eqn:Hk.
    + apply occurs_take; [exact Hc | now apply (IH _ k)].
    + destruct (x =? 10)%N; [discriminate H |].
      destruct (lazy_then ci_eq c (match_here ci_eq pattern) s) as [k |]
        eqn:Hl; [| discriminate H].
      apply occurs_skip. now apply (IHs k).
  - destruct (x =? 10)%N; [discriminate H |].
    destruct (lazy_then ci_eq c (match_here ci_eq pattern) s) as [k |]
      eqn:Hl; [| discriminate H].
    apply occurs_skip. now apply (IHs k).
Qed.

Lemma occurs_match_here pattern s :
  occurs_in_order pattern s -> one_line s ->
  exists n, match_here ci_eq pattern s = Some n.
Proof.
  induction 1 as [s | pattern x s Hocc IH | c pattern x s Hc Hocc IH];
    intros Hline.
  - destruct s; eexists; reflexivity.
  - destruct IH as [n Hn]; [intros y Hy; apply Hline; now right |].
    destruct pattern as [| c pattern]; [eexists; reflexivity |].
    apply (match_here_further c pattern x s n Hn).
    apply Hline. now left.
  - destruct IH as [n Hn]; [intros y Hy; apply Hline; now right |].
    simpl. rewrite Hc, Hn. eexists. reflexivity.
Qed.

(** In a key of one line [_search_for_query] finds a match exactly when
    the characters of the query occur in the key in the same order; in any
    key it finds one only then. *)
Theorem search_for_query_finds_ordered_characters :
  forall query value,
    (_search_for_query ci_eq query value <> None ->
     occurs_in_order query value)
    /\ (one_line value -> occurs_in_order query value ->
        _search_for_query ci_eq query value <> None).
Proof.
  intros query value. unfold _search_for_query. split.
  - generalize O. induction value as [| x value IH]; intros start; simpl.
    + destruct (match_here ci_eq query []) as [n |] eqn:Hn;
        [intros _; now apply (match_here_occurs _ _ n) | intros H; now elim H].
    + destruct (match_here ci_eq query (x :: value)) as [n |] eqn:Hn.
      * intros _. now apply (match_here_occurs _ _ n).
      * intros H. apply occurs_skip. now apply (IH (S start)).
  - intros Hline Hocc.
    destruct (occurs_match_here _ _ Hocc Hline) as [n Hn].
    destruct value; simpl; rewrite Hn; discriminate.
Qed.

(** *** Bounds on the scores *)




(** *** The pre-filter and the substring rules *)

Lemma startswith_set_le s p : startswith s p = true -> set_le p s = true.
Proof.
  revert s. induction p as [| c p IH]; intros s; [reflexivity |].
  destruct s as [| d s]; simpl; [discriminate |].
  intros H. apply andb_true_iff in H. destruct H as [Hc Hs].
  rewrite Hc. simpl. apply IH in Hs. unfold set_le in *.
  apply forallb_forall. intros x Hx.
  apply (proj1 (forallb_forall _ _) Hs) in Hx.
  unfold char_in in *. simpl. rewrite Hx. apply orb_true_r.
Qed.

Lemma contains_set_le s p : contains s p = true -> set_le p s = true.
Proof.
  induction s as [| d s IH]; simpl; intros H.
  - rewrite orb_false_r in H. now apply startswith_set_le.
  - apply orb_true_iff in H. destruct H as [H | H].
    + now apply (startswith_set_le (d :: s)).
    + apply IH in H. unfold set_le in *.
      apply forallb_forall. intros x Hx.
      apply (proj1 (forallb_forall _ _) H) in Hx.
      unfold char_in in *. simpl. rewrite Hx. apply orb_true_r.
Qed.

(** With SUBSTRING active, a word whose lower case is not empty and occurs
    in the lowered key is never left without a rule: the pre-filter lets it
    through and some active rule claims it. *)
Theorem filter_item_substring_gets_rule :
  forall value word match_on fold_diacritics,
    active match_on SUBSTRING = true ->
    lower word <> [] ->
    contains (lower (folded_ value word fold_diacritics)) (lower word)
    = true ->
    exists s rl,
      filter_item value word match_on fold_diacritics
      = Ok (s, Some (bit rl)).
Proof.
  intros value word match_on fold_diacritics Hact Hw Hsub.
  rewrite filter_item_unfold. cbv zeta. unfold prefilter, lowered.
  rewrite (contains_set_le _ _ Hsub). cbn [negb].
  destruct (first_matching_ok priority match_on
              (folded_ value word fold_diacritics) (lower word) Hw)
    as [[s r] Hfm].
  rewrite Hfm. pose proof Hfm as Hinv. apply first_matching_inv in Hinv.
  destruct r as [b |].
  - destruct Hinv as [rl [_ [-> _]]]. now exists s, rl.
  - destruct Hinv as [_ Hnone].
    specialize (Hnone SUBSTRING (all_rules_in_priority SUBSTRING) Hact).
    unfold rule_alone in Hnone. rewrite Hsub in Hnone. discriminate Hnone.
Qed.

(** With STARTSWITH active, a word whose lower case is not empty and
    starts the lowered key is given STARTSWITH, whatever other rules are
    active, with the score [100.0 - len(value) / len(query)], where the key
    is measured after it was folded. *)
Theorem filter_item_prefix_is_startswith :
  forall value word match_on fold_diacritics,
    active match_on STARTSWITH = true ->
    lower word <> [] ->
    startswith (lower (folded_ value word fold_diacritics)) (lower word)
    = true ->
    filter_item value word match_on fold_diacritics
    = Ok ((100 - inject_Z (len (folded_ value word fold_diacritics))
                 / inject_Z (len (lower word)))%Q,
          Some MATCH_STARTSWITH).
Proof.
  intros value word match_on fold_diacritics Hact Hw Hstart.
  rewrite filter_item_unfold. cbv zeta. unfold prefilter, lowered.
  rewrite (startswith_set_le _ _ Hstart). cbn [negb].
  unfold priority. cbn [first_matching]. rewrite Hact.
  unfold rule_alone. rewrite Hstart.
  unfold length_score, truediv.
  destruct (lower word) as [| c q]; [now elim Hw |]. reflexivity.
Qed.

End Properties.

(** ** The claims on concrete inputs *)

(** C3 at the query of two spaces. *)
Lemma filter_blank_query_returns_items_witness :
  OnStrings.filter (of_string "  ")
    [of_string "Google Chrome"; of_string "OmniFocus"]
    true true 50%Q 1 MATCH_CAPITALS false
  = Ok (Items [of_string "Google Chrome"; of_string "OmniFocus"]).
Proof.
  unfold OnStrings.filter.
  apply filter_blank_query_returns_items. reflexivity.
Defined.

(** C1 at the query [adobe illust]: only the candidate matching both words
    is returned. *)
Lemma filter_keeps_only_full_matches_witness :
  ~ In (of_string "Adobe Photoshop")
      (items_of str
         (Items [of_string "Adobe Illustrator"])).
Proof.
  refine (proj2 (filter_keeps_only_full_matches str Empty_set
            str_eqb OnStrings.item_lt OnStrings.lower OnStrings.ci_eq
            OnStrings.fold_to_ascii None
            (of_string "adobe illust")
            [of_string "Adobe Photoshop"; of_string "Adobe Illustrator"]
            OnStrings.key false false 0%Q 0 MATCH_ALL true
            (Items [of_string "Adobe Illustrator"]) _ _)
            (of_string "Adobe Photoshop") (of_string "Adobe Photoshop")
            (of_string "illust") 0%Q None _ _ _ _ _).
  - vm_compute. discriminate.
  - vm_compute. reflexivity.
  - reflexivity.
  - vm_compute. tauto.
  - reflexivity.
  - vm_compute. reflexivity.
  - reflexivity.
Defined.

(** C2 fails as stated: for the key [A] followed by ninety-nine [b] and
    the word [a], STARTSWITH matches with the score
    [100.0 - 100 / 1 = 0.0] and [_filter_item] returns it, while the first
    active rule with a score other than zero is CAPITALS. *)
Lemma filter_item_stops_at_zero_score :
  let value := 65%N :: repeat 98%N 99 in
  let word := of_string "a" in
  OnStrings.shown (OnStrings._filter_item value word MATCH_ALL true)
  = Some (0%Q, Some MATCH_STARTSWITH)
  /\ OnStrings.shown
       (matchWord_spec Empty_set OnStrings.lower OnStrings.ci_eq
          OnStrings.fold_to_ascii value word MATCH_ALL true)
     = Some (99%Q, Some MATCH_CAPITALS)
  /\ OnStrings._filter_item value word MATCH_ALL true
     <> matchWord_spec Empty_set OnStrings.lower OnStrings.ci_eq
          OnStrings.fold_to_ascii value word MATCH_ALL true.
Proof.
  cbv zeta. split; [vm_compute; reflexivity |].
  split; [vm_compute; reflexivity |].
  vm_compute. discriminate.
Qed.

(** C5 fails as stated: a key of one hundred and one [a] starts with the
    word [a] and scores [100.0 - 101 / 1 = -1.0]. *)
Lemma filter_item_negative_score :
  exists s r,
    OnStrings._filter_item (repeat 97%N 101) (of_string "a") MATCH_ALL true
    = Ok (s, r)
    /\ (s < 0)%Q.
Proof.
  eexists. eexists. split.
  - vm_compute. reflexivity.
  - reflexivity.
Qed.

(** C5 as amended, at the key [Google Chrome] and the word [goog]. *)
Lemma filter_item_score_sign_witness :
  (0 <= 100 - inject_Z 13 / inject_Z 4)%Q
  /\ ((100 - inject_Z 13 / inject_Z 4 == 0)%Q ->
      Some MATCH_STARTSWITH = None
      /\ no_rule_matches Empty_set OnStrings.lower OnStrings.ci_eq MATCH_ALL
           (folded OnStrings.lower OnStrings.fold_to_ascii
              (of_string "Google Chrome") (of_string "goog") true)
           (lowered OnStrings.lower (of_string "goog"))).
Proof.
  apply (filter_item_score_sign Empty_set OnStrings.lower OnStrings.ci_eq
           OnStrings.fold_to_ascii (of_string "Google Chrome")
           (of_string "goog") MATCH_ALL true).
  - vm_compute. reflexivity.
  - vm_compute. reflexivity.
Defined.

(** C7 at the key [How I Met Your Mother] and the word [met]. *)
Lemma atom_rule_matches_atoms_witness :
  rule_alone Empty_set OnStrings.lower OnStrings.ci_eq ATOM
    (of_string "How I Met Your Mother") (of_string "met")
  = Some (Ok (100 - inject_Z 21 / inject_Z 3)%Q).
Proof.
  apply (proj1 (atom_rule_matches_atoms Empty_set OnStrings.lower
                  OnStrings.ci_eq (of_string "How I Met Your Mother")
                  (of_string "met") eq_refl
                  ltac:(discriminate))).
  vm_compute. tauto.
Defined.

(** C9 at a mask that has none of the seven bits. *)
Lemma filter_item_rule_in_mask_witness :
  OnStrings._filter_item (of_string "Google Chrome") (of_string "goog")
    128 true
  = Ok (0%Q, None).
Proof.
  apply (proj2 (proj2 (filter_item_rule_in_mask Empty_set OnStrings.lower
                         OnStrings.ci_eq OnStrings.fold_to_ascii
                         (of_string "Google Chrome") (of_string "goog")
                         128 true))).
  reflexivity.
Defined.

(** C10. There are a key, a word and a mask for which the condition of the
    highest-priority active rule holds and yet the score is zero: the key
    [A] followed by ninety-nine [b] starts with the word [a] and has one
    hundred times its length, so STARTSWITH scores [100.0 - 100 / 1 = 0.0]
    and [_filter_item] returns zero paired with STARTSWITH, not with
    [None]; [filter] then rejects the candidate, although CAPITALS, which is
    active and comes later, would have scored 99. *)
Theorem zero_score_hides_lower_rule :
  exists value word match_on,
    active match_on STARTSWITH = true
    /\ startswith (OnStrings.lower value) (OnStrings.lower word) = true
    /\ len value = 100 * len word
    /\ (exists s,
          OnStrings._filter_item value word match_on true
          = Ok (s, Some MATCH_STARTSWITH)
          /\ (s == 0)%Q)
    /\ OnStrings.filter word [value] false false 0%Q 0 match_on true
       = Ok (Items [])
    /\ active match_on CAPITALS = true
    /\ (exists s',
          rule_alone Empty_set OnStrings.lower OnStrings.ci_eq CAPITALS
            value (OnStrings.lower word) = Some (Ok s')
          /\ (0 < s')%Q).
Proof.
  exists (65%N :: repeat 98%N 99), (of_string "a"), MATCH_ALL.
  split; [reflexivity |].
  split; [vm_compute; reflexivity |].
  split; [reflexivity |].
  split.
  { eexists. split; [vm_compute; reflexivity | reflexivity]. }
  split; [vm_compute; reflexivity |].
  split; [reflexivity |].
  eexists. split; [vm_compute; reflexivity | reflexivity].
Qed.

(** C4 on the candidates [ab] and [ac] and the query [a], with
    [ascending=True]: both score 98, and [ac] is returned before [ab]. *)
Theorem ascending_reverses_equal_scores :
  OnStrings.shown_output
    (OnStrings.filter (of_string "a") [of_string "ab"; of_string "ac"]
       true true 0%Q 0 MATCH_ALL true)
  = Some [(of_string "ac", 98%Q); (of_string "ab", 98%Q)]
  /\ str_ltb (OnStrings.lower (of_string "ab"))
       (OnStrings.lower (of_string "ac")) = true.
Proof.
  split; vm_compute; reflexivity.
Qed.

(** C6 on two dictionaries with the same title [a] and the identifiers 1
    and 2: [key] returns a string for both, their sort keys are equal, the
    sort goes on to compare the dictionaries themselves, and [filter]
    raises [TypeError]. *)
Theorem equal_keys_compare_candidates :
  let items := [(of_string "a", 1%nat); (of_string "a", 2%nat)] in
  (forall d, In d items -> OnRecords.key d = Ok (of_string "a"))
  /\ OnRecords.filter (of_string "a") items false false 0%Q 0 MATCH_ALL true
     = Raise TypeError.
Proof.
  cbv zeta. split.
  - intros d [<- | [<- | []]]; reflexivity.
  - vm_compute. reflexivity.
Qed.

(** C8 on the word made of U+212A KELVIN SIGN, whose lower case is the
    ASCII letter k, and the key [k] followed by a sharp s: the word has a
    character outside ASCII, yet the key is folded when [fold_diacritics] is
    set, and the two scores differ. *)
Theorem kelvin_sign_word_is_folded :
  let word := [8490%N] in
  let value := [107%N; 223%N] in
  isascii word = false
  /\ OnStrings.shown (OnStrings._filter_item value word MATCH_ALL true)
     = Some (97%Q, Some MATCH_STARTSWITH)
  /\ OnStrings.shown (OnStrings._filter_item value word MATCH_ALL false)
     = Some (98%Q, Some MATCH_STARTSWITH).
Proof.
  cbv zeta. repeat split; vm_compute; reflexivity.
Qed.

(** ** Properties of [Version] *)

Section VersionProperties.

Set Default Proof Using "Type".

Import Version.

Variable unicode_digit : N -> digit_kind.

Local Abbreviation digit_of_ := (digit_of unicode_digit) (only parsing).
Local Abbreviation isdigit_ := (isdigit unicode_digit) (only parsing).
Local Abbreviation int_onto_ := (int_onto unicode_digit) (only parsing).
Local Abbreviation int_ := (int unicode_digit) (only parsing).
Local Abbreviation parse_parts_ := (parse_parts unicode_digit)
  (only parsing).
Local Abbreviation parse_dotted := (_parse_dotted_string unicode_digit)
  (only parsing).
Local Abbreviation init := (__init__ unicode_digit) (only parsing).
Local Abbreviation lt_ := (__lt__ unicode_digit) (only parsing).

(** *** Decimal digits *)

Lemma digit_of_ascii c :
  is_ascii_digit c = true -> digit_of_ c = Decimal (Z.of_N c - 48).
Proof. intros H. unfold digit_of. now rewrite H. Qed.

Lemma ascii_digit_of_mod n :
  0 <= n ->
  is_ascii_digit (Z.to_N (48 + n mod 10)) = true
  /\ Z.of_N (Z.to_N (48 + n mod 10)) - 48 = n mod 10.
Proof.
  intros Hn. pose proof (Z.mod_pos_bound n 10 ltac:(lia)) as Hm.
  split.
  - unfold is_ascii_digit. apply andb_true_iff. split; apply N.leb_le; lia.
  - rewrite Z2N.id by lia. lia.
Qed.

Lemma digits_onto_int fuel :
  forall n acc,
    0 <= n < 2 ^ Z.of_nat fuel ->
    int_onto_ 0 (digits_onto fuel n acc) = int_onto_ n acc.
Proof.
  induction fuel as [| fuel IH]; intros n acc Hn.
  - simpl in *. replace n with 0 by lia. reflexivity.
  - cbn [digits_onto].
    destruct (ascii_digit_of_mod n ltac:(lia)) as [Hd Hv].
    pose proof (Z.div_mod n 10 ltac:(lia)) as Hdm.
    destruct (Z.eqb_spec (n / 10) 0) as [Hz | Hnz].
    + cbn [int_onto]. rewrite (digit_of_ascii _ Hd), Hv.
      f_equal. lia.
    + rewrite IH.
      * cbn [int_onto]. rewrite (digit_of_ascii _ Hd), Hv.
        f_equal. lia.
      * split; [apply Z.div_pos; lia |].
        apply Z.div_lt_upper_bound; [lia |].
        rewrite Nat2Z.inj_succ, Z.pow_succ_r in Hn by lia. lia.
Qed.

Lemma digits_onto_shape fuel :
  forall n acc,
    0 <= n ->
    exists ds,
      digits_onto fuel n acc = ds ++ acc
      /\ Forall (fun c => is_ascii_digit c = true) ds
      /\ (fuel <> O -> ds <> []).
Proof.
  induction fuel as [| fuel IH]; intros n acc Hn.
  - exists []. repeat split; [constructor | now intros H].
  - cbn [digits_onto].
    destruct (ascii_digit_of_mod n Hn) as [Hd _].
    destruct (n / 10 =? 0).
    + exists [Z.to_N (48 + n mod 10)]. repeat split.
      * now constructor.
      * discriminate.
    + destruct (IH (n / 10) (Z.to_N (48 + n mod 10) :: acc))
        as [ds [Heq [Hall _]]]; [apply Z.div_pos; lia |].
      exists (ds ++ [Z.to_N (48 + n mod 10)]). repeat split.
      * rewrite Heq, <- app_assoc. reflexivity.
      * apply Forall_app. split; [exact Hall | now constructor].
      * intros _ H. now destruct ds.
Qed.

(** The decimal digits of a number that is not negative are ASCII digits,
    at least one. *)
Lemma str_of_int_digits n :
  0 <= n ->
  Forall (fun c => is_ascii_digit c = true) (str_of_int n)
  /\ str_of_int n <> [].
Proof.
  intros Hn. unfold str_of_int.
  destruct (Z.ltb_spec n 0) as [Hneg | _]; [lia |].
  destruct (digits_onto_shape (S (Z.to_nat (Z.log2 n))) n [] Hn)
    as [ds [Heq [Hall Hne]]].
  rewrite Heq, app_nil_r. split; [exact Hall | now apply Hne].
Qed.

(** [int(str(n)) == n] for a number that is not negative. *)
Lemma int_str_of_int n : 0 <= n -> int_ (str_of_int n) = Ok n.
Proof.
  intros Hn. unfold int, str_of_int.
  destruct (Z.ltb_spec n 0) as [Hneg | _]; [lia |].
  rewrite digits_onto_int; [reflexivity |].
  split; [exact Hn |].
  destruct (Z.eq_dec n 0) as [-> | Hnz]; [reflexivity |].
  rewrite Nat2Z.inj_succ, Z2Nat.id by apply Z.log2_nonneg.
  apply Z.log2_spec. lia.
Qed.

(** *** Splitting and scanning *)

Lemma span_all (p : N -> bool) a b :
  Forall (fun c => p c = true) a ->
  match b with [] => True | c :: _ => p c = false end ->
  span p (a ++ b) = (a, b).
Proof.
  intros Ha Hb. induction Ha as [| c a Hc Ha IH]; simpl.
  - destruct b as [| c b]; [reflexivity |]. simpl in *. now rewrite Hb.
  - now rewrite Hc, IH.
Qed.

Lemma span_prefix (p : N -> bool) s :
  Forall (fun c => p c = true) (fst (span p s))
  /\ (forall c, In c (snd (span p s)) -> In c s)
  /\ (forall c, In c (fst (span p s)) -> In c s).
Proof.
  induction s as [| c s IH]; simpl.
  - repeat split; [constructor | intros x Hx; exact Hx | intros x []].
  - destruct (p c) eqn:Hc.
    + destruct (span p s) as [a b]. simpl in *.
      destruct IH as [Ha [Hb Hin]]. repeat split.
      * now constructor.
      * intros x Hx. right. now apply Hb.
      * intros x [<- | Hx]; [now left | right; now apply Hin].
    + simpl. repeat split;
        [constructor | intros x Hx; exact Hx | intros x []].
Qed.

Lemma split_at_whole (sep : N -> bool) a :
  Forall (fun c => sep c = false) a -> split_at sep a = [a].
Proof.
  induction 1 as [| c a Hc Ha IH]; simpl; [reflexivity |].
  now rewrite Hc, IH.
Qed.

Lemma split_at_first (sep : N -> bool) a c b :
  Forall (fun x => sep x = false) a -> sep c = true ->
  split_at sep (a ++ c :: b) = a :: split_at sep b.
Proof.
  intros Ha Hc. induction Ha as [| x a Hx Ha IH]; simpl.
  - now rewrite Hc.
  - now rewrite Hx, IH.
Qed.

Lemma split_at_pieces (sep : N -> bool) s :
  Forall (fun piece => forall c, In c piece -> sep c = false /\ In c s)
    (split_at sep s).
Proof.
  induction s as [| c s IH]; simpl.
  - constructor; [intros c [] | constructor].
  - destruct (sep c) eqn:Hc.
    + constructor; [intros x [] |].
      apply (Forall_impl _ (P := fun piece =>
               forall x, In x piece -> sep x = false /\ In x s)); [| exact IH].
      intros piece H x Hx. destruct (H x Hx). split; [assumption | now right].
    + destruct (split_at sep s) as [| w ws]; [constructor |].
      * intros x [<- | []]. split; [exact Hc | now left].
      * constructor.
      * apply Forall_cons_iff in IH. destruct IH as [Hw Hws].
        constructor.
        -- intros x [<- | Hx]; [split; [exact Hc | now left] |].
           destruct (Hw x Hx). split; [assumption | now right].
        -- apply (Forall_impl _ (P := fun piece =>
                    forall x, In x piece -> sep x = false /\ In x s));
             [| exact Hws].
           intros piece H x Hx. destruct (H x Hx).
           split; [assumption | now right].
Qed.

Lemma split_at_head_nonempty (sep : N -> bool) c s :
  sep c = false ->
  exists w ws, split_at sep (c :: s) = (c :: w) :: ws.
Proof.
  intros Hc. simpl. rewrite Hc.
  destruct (split_at sep s) as [| w ws]; eexists; eexists; reflexivity.
Qed.

Lemma find_first c s idx :
  find c s = Some idx ->
  ~ In c (firstn idx s)
  /\ (forall x, In x (firstn idx s) -> In x s)
  /\ (forall x, In x (skipn (S idx) s) -> In x s).
Proof.
  revert idx. induction s as [| x s IH]; simpl; intros idx H;
    [discriminate H |].
  destruct (N.eqb_spec x c) as [-> | Hne].
  - injection H as <-. simpl. repeat split;
      [intros [] | intros y [] | intros y Hy; now right].
  - destruct (find c s) as [i |]; [| discriminate H]. injection H as <-.
    destruct (IH i eq_refl) as [Hno [Hf Hs]]. simpl. repeat split.
    + intros [E | Hin]; [now elim Hne | now elim Hno].
    + intros y [<- | Hy]; [now left | right; now apply Hf].
    + intros y Hy. right. now apply Hs.
Qed.

Lemma find_none c s : find c s = None -> ~ In c s.
Proof.
  induction s as [| x s IH]; simpl; [intros _ [] |].
  destruct (N.eqb_spec x c) as [-> | Hne]; [discriminate |].
  destruct (find c s); [discriminate |].
  intros _ [E | Hin]; [now elim Hne | now apply IH].
Qed.

Lemma find_absent c s : ~ In c s -> find c s = None.
Proof.
  induction s as [| x s IH]; simpl; intros H; [reflexivity |].
  destruct (N.eqb_spec x c) as [-> | Hne]; [elim H; now left |].
  rewrite IH; [reflexivity |]. intros Hin. apply H. now right.
Qed.

Lemma find_after c a b :
  ~ In c a -> find c (a ++ c :: b) = Some (length a).
Proof.
  induction a as [| x a IH]; simpl; intros H.
  - now rewrite N.eqb_refl.
  - destruct (N.eqb_spec x c) as [-> | Hne]; [elim H; now left |].
    rewrite IH; [reflexivity |]. intros Hin. apply H. now right.
Qed.

(** *** What [_parse] accepts *)

Lemma int_onto_digits p :
  Forall (fun c => is_ascii_digit c = true) p ->
  forall acc, 0 <= acc ->
    exists n, int_onto_ acc p = Ok n /\ 0 <= n.
Proof.
  induction 1 as [| c p Hc Hp IH]; intros acc Hacc; simpl.
  - now exists acc.
  - rewrite (digit_of_ascii c Hc). apply IH.
    unfold is_ascii_digit in Hc. apply andb_true_iff in Hc.
    destruct Hc as [Hc _]. apply N.leb_le in Hc. lia.
Qed.

Lemma isdigit_digits p :
  Forall (fun c => is_ascii_digit c = true) p ->
  isdigit_ p = negb (is_empty p).
Proof.
  intros Hp. unfold isdigit.
  replace (forallb _ p) with true; [apply andb_true_r |].
  symmetry. apply forallb_forall. intros c Hc.
  rewrite (digit_of_ascii c); [reflexivity |].
  now apply (proj1 (Forall_forall _ _) Hp).
Qed.

Lemma parse_parts_digits pieces :
  Forall (Forall (fun c => is_ascii_digit c = true)) pieces ->
  exists parts,
    parse_parts_ pieces = Ok parts
    /\ Forall2 (fun piece p =>
                  number_or_empty p
                  /\ (piece <> [] -> exists n, p = Num n /\ 0 <= n))
         pieces parts.
Proof.
  induction 1 as [| piece pieces Hp Hps IH]; simpl.
  - exists []. split; [reflexivity | constructor].
  - destruct IH as [parts [-> Hall]].
    rewrite (isdigit_digits piece Hp).
    destruct piece as [| c piece]; simpl.
    + exists (Txt [] :: parts). split; [reflexivity |].
      constructor; [| exact Hall]. split; [reflexivity | now intros H].
    + destruct (int_onto_digits (c :: piece) Hp 0 ltac:(lia)) as [n [Hn Hpos]].
      unfold int. rewrite Hn. simpl.
      exists (Num n :: parts). split; [reflexivity |].
      constructor; [| exact Hall]. split; [exact Hpos |].
      intros _. now exists n.
Qed.

Lemma match_version_inv s version suffix :
  match_version s = Some (version, suffix) ->
  (exists c rest,
      version = c :: rest
      /\ is_ascii_digit c = true
      /\ Forall (fun x => is_ascii_digit x || (x =? 46)%N = true) rest)
  /\ match suffix with
     | Some suf => suf <> [] /\ ~ In 10%N suf
     | None => True
     end.
Proof.
  unfold match_version. destruct s as [| c s]; [discriminate |].
  destruct (is_ascii_digit c) eqn:Hc; [| discriminate].
  pose proof (span_prefix (fun x => is_ascii_digit x || (x =? 46)%N) s)
    as [Hv _].
  destruct (span (fun x => is_ascii_digit x || (x =? 46)%N) s)
    as [ver rest].
  pose proof (span_prefix (fun x => negb (x =? 10)%N) rest) as [Hs _].
  destruct (span (fun x => negb (x =? 10)%N) rest) as [suf rest'].
  simpl in Hv, Hs. intros H. injection H as <- <-. split.
  - exists c, ver. now repeat split.
  - destruct suf as [| x suf]; [exact I |]. split; [discriminate |].
    intros Hin. apply (proj1 (Forall_forall _ _) Hs) in Hin.
    discriminate Hin.
Qed.

Lemma version_pieces c rest :
  is_ascii_digit c = true ->
  Forall (fun x => is_ascii_digit x || (x =? 46)%N = true) rest ->
  exists w ws,
    split_at (N.eqb 46) (c :: rest) = (c :: w) :: ws
    /\ Forall (Forall (fun x => is_ascii_digit x = true)) ((c :: w) :: ws).
Proof.
  intros Hc Hrest.
  assert (Hdot : N.eqb 46 c = false).
  { unfold is_ascii_digit in Hc. apply andb_true_iff in Hc.
    destruct Hc as [Hc _]. apply N.leb_le in Hc. apply N.eqb_neq. lia. }
  destruct (split_at_head_nonempty (N.eqb 46) c rest Hdot) as [w [ws Heq]].
  exists w, ws. split; [exact Heq |].
  rewrite <- Heq.
  pose proof (split_at_pieces (N.eqb 46) (c :: rest)) as Hp.
  apply (Forall_impl _ (P := fun piece =>
           forall x, In x piece -> N.eqb 46 x = false /\ In x (c :: rest)));
    [| exact Hp].
  intros piece H. apply Forall_forall. intros x Hx.
  destruct (H x Hx) as [Hsep [<- | Hin]]; [exact Hc |].
  apply (proj1 (Forall_forall _ _) Hrest) in Hin.
  apply orb_true_iff in Hin. destruct Hin as [Hd | Hd]; [exact Hd |].
  rewrite N.eqb_sym in Hsep. congruence.
Qed.

Lemma init_gives_parsed :
  forall vstr v, init vstr = Ok v -> parsed v.
Proof.
  intros vstr v. unfold __init__.
  destruct (is_empty vstr); [discriminate |].
  unfold _parse.
  set (m := if startswith vstr (of_string "v") then _ else _).
  destruct m as [[version suffix] |] eqn:Hm; [| discriminate].
  assert (Hmv : exists s, match_version s = Some (version, suffix)).
  { unfold m in Hm. destruct (startswith vstr (of_string "v"));
      eexists; exact Hm. }
  destruct Hmv as [s Hmv]. apply match_version_inv in Hmv.
  destruct Hmv as [[c [rest [-> [Hc Hrest]]]] Hsuf].
  destruct (version_pieces c rest Hc Hrest) as [w [ws [Hsplit Hdig]]].
  unfold _parse_dotted_string. rewrite Hsplit.
  destruct (parse_parts_digits _ Hdig) as [parts [-> Hparts]].
  inversion Hparts as [| ? p1 ? ps [Hp1 Hn1] Hrest1]; subst.
  destruct (Hn1 ltac:(discriminate)) as [n [-> Hn]].
  cbn [bind pop0].
  assert (Hstep : forall (ps : list part) (pieces : list str),
            Forall2 (fun piece p =>
                       number_or_empty p
                       /\ (piece <> [] -> exists n, p = Num n /\ 0 <= n))
              pieces ps ->
            exists p ps' (pieces' : list str),
              (if (0 <? length ps)%nat then pop0 ps else Ok (Num 0, ps))
              = Ok (p, ps')
              /\ number_or_empty p
              /\ Forall2 (fun (piece : str) p =>
                            number_or_empty p
                            /\ (piece <> [] ->
                                exists n, p = Num n /\ 0 <= n))
                   pieces' ps').
  { intros qs pieces H. destruct H as [| piece q pieces qs [Hq _] Hqs].
    - exists (Num 0), (@nil part), (@nil str).
      repeat split; [simpl; lia | constructor].
    - exists q, qs, pieces. repeat split; assumption. }
  destruct (Hstep _ _ Hrest1) as [mi [ps2 [pieces2 [-> [Hmi H2]]]]].
  cbn [bind].
  destruct (Hstep _ _ H2) as [pa [ps3 [pieces3 [-> [Hpa _]]]]].
  cbn [bind].
  destruct (negb (length ps3 =? 0)%nat); [discriminate |].
  assert (Hmajor : exists k, Num n = Num k /\ 0 <= k) by now exists n.
  destruct suffix as [suf |].
  - destruct Hsuf as [_ Hnl].
    destruct (find 43 suf) as [idx |] eqn:Hfind.
    + destruct (find_first _ _ _ Hfind) as [Hno [Hf Hs]].
      destruct (negb (is_empty (firstn idx suf))).
      * destruct (negb (startswith (firstn idx suf) (of_string "-")));
          [discriminate |].
        intros H. injection H as <-. unfold parsed. simpl.
        repeat split; try assumption.
        -- intros Hin. apply Hno. destruct (firstn idx suf); [destruct Hin |].
           now right.
        -- intros Hin. apply Hnl, Hf. destruct (firstn idx suf);
             [destruct Hin |].
           now right.
        -- intros Hin. now apply Hnl, Hs.
      * intros H. injection H as <-. unfold parsed. simpl.
        repeat split; try assumption; try (intros []).
        intros Hin. now apply Hnl, Hs.
    + apply find_none in Hfind.
      destruct (negb (is_empty suf)).
      * destruct (negb (startswith suf (of_string "-"))); [discriminate |].
        intros H. injection H as <-. unfold parsed. simpl.
        repeat split; try assumption; try (intros []).
        -- intros Hin. apply Hfind. destruct suf; [destruct Hin |].
           now right.
        -- intros Hin. apply Hnl. destruct suf; [destruct Hin |]. now right.
      * intros H. injection H as <-. unfold parsed. simpl.
        repeat split; try assumption; intros [].
  - intros H. injection H as <-. unfold parsed. simpl.
    repeat split; try assumption; intros [].
Qed.

(** *** From a version to its string and back *)

Lemma ascii_digit_not_dot c :
  is_ascii_digit c = true -> N.eqb 46 c = false.
Proof.
  unfold is_ascii_digit. intros H. apply andb_true_iff in H.
  destruct H as [H _]. apply N.leb_le in H. apply N.eqb_neq. lia.
Qed.

Lemma str_of_part_digits p :
  number_or_empty p ->
  Forall (fun c => is_ascii_digit c = true) (str_of_part p).
Proof.
  destruct p as [n | s]; simpl.
  - intros Hn. now apply str_of_int_digits.
  - intros ->. constructor.
Qed.

Lemma parse_piece_of_part p :
  number_or_empty p ->
  (if isdigit_ (str_of_part p)
   then n <- int_ (str_of_part p) ;; Ok (Num n)
   else Ok (Txt (str_of_part p))) = Ok p.
Proof.
  intros Hp. rewrite (isdigit_digits _ (str_of_part_digits p Hp)).
  destruct p as [n | s]; simpl in *.
  - destruct (str_of_int_digits n Hp) as [_ Hne].
    destruct (str_of_int n) eqn:E; [now elim Hne |].
    simpl. rewrite <- E, int_str_of_int by exact Hp. reflexivity.
  - subst s. reflexivity.
Qed.

Lemma skipn_after {A} (a : list A) c b :
  skipn (S (length a)) (a ++ c :: b) = b.
Proof. induction a as [| x a IH]; [reflexivity | exact IH]. Qed.

Lemma firstn_before {A} (a b : list A) : firstn (length a) (a ++ b) = a.
Proof.
  induction a as [| x a IH]; simpl; [reflexivity | now rewrite IH].
Qed.

(** What follows the three numbers in [str(v)]. *)
Lemma str_tail (v : t) :
  exists tail,
    __str__ v
    = (str_of_part (major v) ++ of_string "."
       ++ str_of_part (minor v) ++ of_string "."
       ++ str_of_part (patch v)) ++ tail
    /\ tail
       = (if negb (is_empty (suffix v)) then 45%N :: suffix v else [])
         ++ (if negb (is_empty (build v)) then 43%N :: build v else []).
Proof.
  eexists. split; [| reflexivity]. unfold __str__.
  destruct (negb (is_empty (suffix v))), (negb (is_empty (build v)));
    simpl; rewrite <- ?app_assoc, ?app_nil_r; reflexivity.
Qed.

Lemma str_round_trip :
  forall v,
    parsed v ->
    init (__str__ v)
    = Ok (make (__str__ v) (major v) (minor v) (patch v) (suffix v)
            (build v)).
Proof.
  intros v [[n [Hmaj Hn]] [Hmin [Hpat [Hplus [Hnl Hnlb]]]]].
  destruct (str_tail v) as [tail [Hstr Htail]].
  assert (Hmajor : number_or_empty (major v)) by (rewrite Hmaj; exact Hn).
  pose proof (str_of_part_digits _ Hmajor) as HM.
  pose proof (str_of_part_digits _ Hmin) as Hmi.
  pose proof (str_of_part_digits _ Hpat) as Hpa.
  destruct (str_of_int_digits n Hn) as [_ HMne].
  assert (HMeq : str_of_part (major v) = str_of_int n) by now rewrite Hmaj.
  destruct (str_of_part (major v)) as [| c M] eqn:EM;
    [now rewrite <- HMeq in HMne |].
  assert (Hc : is_ascii_digit c = true) by now inversion HM.
  assert (HM' : Forall (fun x => is_ascii_digit x = true) M)
    by now inversion HM.
  set (body := M ++ of_string "." ++ str_of_part (minor v)
               ++ of_string "." ++ str_of_part (patch v)).
  assert (Hs : __str__ v = c :: body ++ tail).
  { rewrite Hstr. unfold body. simpl. now rewrite <- !app_assoc. }
  assert (Hbody : Forall (fun x => is_ascii_digit x || (x =? 46)%N = true)
                    body).
  { unfold body. repeat (apply Forall_app; split).
    - apply (Forall_impl _ (P := fun x => is_ascii_digit x = true));
        [intros x -> ; reflexivity | exact HM'].
    - repeat constructor.
    - apply (Forall_impl _ (P := fun x => is_ascii_digit x = true));
        [intros x -> ; reflexivity | exact Hmi].
    - repeat constructor.
    - apply (Forall_impl _ (P := fun x => is_ascii_digit x = true));
        [intros x -> ; reflexivity | exact Hpa]. }
  assert (Htl : match tail with
                | [] => True
                | x :: _ => is_ascii_digit x || (x =? 46)%N = false
                end).
  { rewrite Htail. destruct (negb (is_empty (suffix v)));
      [reflexivity |].
    destruct (negb (is_empty (build v))); [reflexivity | exact I]. }
  assert (Hline : Forall (fun x => negb (x =? 10)%N = true) tail).
  { apply Forall_forall. intros x Hx. apply negb_true_iff, N.eqb_neq.
    intros ->. rewrite Htail in Hx. apply in_app_or in Hx.
    destruct Hx as [Hx | Hx].
    - destruct (negb (is_empty (suffix v))); [| destruct Hx].
      destruct Hx as [Hx | Hx]; [discriminate Hx | now apply Hnl].
    - destruct (negb (is_empty (build v))); [| destruct Hx].
      destruct Hx as [Hx | Hx]; [discriminate Hx | now apply Hnlb]. }
  assert (Hmatch : match_version (__str__ v)
                   = Some (c :: body,
                           match tail with
                           | [] => None
                           | _ :: _ => Some tail
                           end)).
  { rewrite Hs. unfold match_version. rewrite Hc.
    rewrite (span_all _ body tail Hbody Htl).
    rewrite <- (app_nil_r tail) at 1.
    rewrite (span_all _ tail [] Hline I). reflexivity. }
  assert (Hsplit : split_at (N.eqb 46) (c :: body)
                   = [c :: M; str_of_part (minor v);
                      str_of_part (patch v)]).
  { replace (c :: body)
      with ((c :: M) ++ 46%N :: str_of_part (minor v)
            ++ 46%N :: str_of_part (patch v)) by reflexivity.
    rewrite split_at_first; [| | reflexivity].
    - rewrite split_at_first; [| | reflexivity].
      + rewrite split_at_whole; [reflexivity |].
        apply (Forall_impl _ (P := fun x => is_ascii_digit x = true));
          [apply ascii_digit_not_dot | exact Hpa].
      + apply (Forall_impl _ (P := fun x => is_ascii_digit x = true));
          [apply ascii_digit_not_dot | exact Hmi].
    - apply (Forall_impl _ (P := fun x => is_ascii_digit x = true));
        [apply ascii_digit_not_dot | exact HM]. }
  unfold __init__. rewrite Hs at 1. cbn [is_empty].
  unfold _parse.
  assert (Hv : startswith (__str__ v) (of_string "v") = false).
  { rewrite Hs.
    change (startswith (c :: body ++ tail) (of_string "v"))
      with (N.eqb 118 c && startswith (body ++ tail) []).
    replace (N.eqb 118 c) with false; [reflexivity |].
    symmetry. apply N.eqb_neq.
    unfold is_ascii_digit in Hc. apply andb_true_iff in Hc.
    destruct Hc as [_ Hc]. apply N.leb_le in Hc. lia. }
  rewrite Hv, Hmatch.
  unfold _parse_dotted_string. rewrite Hsplit.
  cbn [parse_parts]. rewrite <- EM.
  rewrite (parse_piece_of_part _ Hmajor), (parse_piece_of_part _ Hmin),
    (parse_piece_of_part _ Hpat).
  cbn [bind pop0 length Nat.ltb Nat.leb Nat.eqb negb].
  rewrite Htail.
  destruct (suffix v) as [| x suf] eqn:Esuf;
    destruct (build v) as [| y bld] eqn:Ebld; cbn [is_empty negb app].
  - reflexivity.
  - cbn [find N.eqb Pos.eqb skipn firstn is_empty negb]. reflexivity.
  - assert (Hf : find 43 (45%N :: x :: suf) = None).
    { apply find_absent. intros [E | Hin]; [discriminate E | now apply Hplus]. }
    rewrite app_nil_r, Hf. reflexivity.
  - pose proof (find_after 43 (45%N :: x :: suf) (y :: bld)) as Hf.
    pose proof (skipn_after (45%N :: x :: suf) 43%N (y :: bld)) as Hsk.
    pose proof (firstn_before (45%N :: x :: suf) (43%N :: y :: bld)) as Hfi.
    cbn [app length] in Hf, Hsk, Hfi.
    rewrite Hf by (intros [E | Hin]; [discriminate E | now apply Hplus]).
    rewrite Hsk, Hfi. reflexivity.
Qed.

(** A version number that [Version] accepts has a number for [major],
    numbers or empty strings for [minor] and [patch], none of them
    negative, no plus sign in the suffix, and no newline in the suffix or
    the build. *)
Theorem init_parsed :
  forall vstr v, init vstr = Ok v -> parsed v.
Proof.
  exact init_gives_parsed.
Qed.

(** [Version(str(v))] has the attributes of [v]: the string of a version
    that [Version] built is accepted again and gives the same numbers,
    suffix and build, so it is equal to [v] and neither is before the
    other. *)
Theorem init_str_round_trip :
  forall s v,
    init s = Ok v ->
    exists v',
      init (__str__ v) = Ok v'
      /\ vstr v' = __str__ v
      /\ (major v', minor v', patch v', suffix v', build v')
         = (major v, minor v, patch v, suffix v, build v)
      /\ __eq__ v' v = true.
Proof.
  intros s v Hv. apply init_gives_parsed in Hv.
  eexists. split; [now apply str_round_trip |].
  split; [reflexivity |]. split; [reflexivity |].
  unfold __eq__, tuple, tuple3, tuple3_eqb. cbn [major minor patch suffix fst snd].
  assert (Hp : forall p, part_eqb p p = true).
  { intros [n | u]; simpl; [apply Z.eqb_refl | now apply str_eqb_eq]. }
  rewrite !Hp. now rewrite (proj2 (str_eqb_eq _ _) eq_refl).
Qed.

(** *** The order of versions *)

Lemma part_eqb_sym a b : part_eqb a b = part_eqb b a.
Proof.
  destruct a as [x | s], b as [y | u]; simpl; try reflexivity.
  - apply Z.eqb_sym.
  - destruct (str_eqb s u) eqn:E.
    + apply str_eqb_eq in E. subst u. symmetry.
      now apply str_eqb_eq.
    + destruct (str_eqb u s) eqn:E'; [| reflexivity].
      apply str_eqb_eq in E'. subst u.
      now rewrite (proj2 (str_eqb_eq s s) eq_refl) in E.
Qed.

Lemma part_lt_asym a b :
  part_lt a b = Ok true -> part_lt b a = Ok false.
Proof.
  destruct a as [x | s], b as [y | u]; simpl; try discriminate.
  - intros H. injection H as H. apply Z.ltb_lt in H. f_equal.
    apply Z.ltb_ge. lia.
  - intros H. injection H as H. f_equal.
    destruct (str_ltb u s) eqn:E; [| reflexivity].
    pose proof (str_ltb_trans _ _ _ H E) as Habs.
    now rewrite str_ltb_irrefl in Habs.
Qed.

Lemma tuple3_eqb_sym a b : tuple3_eqb a b = tuple3_eqb b a.
Proof.
  destruct a as [[a1 a2] a3], b as [[b1 b2] b3]. unfold tuple3_eqb.
  now rewrite (part_eqb_sym a1), (part_eqb_sym a2), (part_eqb_sym a3).
Qed.

Lemma tuple3_eqb_lt a b :
  tuple3_eqb a b = true -> tuple3_lt a b = Ok false.
Proof.
  destruct a as [[a1 a2] a3], b as [[b1 b2] b3].
  unfold tuple3_eqb, tuple3_lt. intros H.
  apply andb_true_iff in H. destruct H as [H H3].
  apply andb_true_iff in H. destruct H as [H1 H2].
  now rewrite H1, H2, H3.
Qed.

Lemma tuple3_lt_asym a b :
  tuple3_lt a b = Ok true ->
  tuple3_lt b a = Ok false /\ tuple3_eqb a b = false.
Proof.
  destruct a as [[a1 a2] a3], b as [[b1 b2] b3].
  unfold tuple3_lt, tuple3_eqb.
  rewrite (part_eqb_sym b1 a1), (part_eqb_sym b2 a2), (part_eqb_sym b3 a3).
  destruct (part_eqb a1 b1); cbn [negb andb].
  - destruct (part_eqb a2 b2); cbn [negb andb].
    + destruct (part_eqb a3 b3); cbn [negb andb]; [discriminate |].
      intros H. split; [now apply part_lt_asym | reflexivity].
    + intros H. split; [now apply part_lt_asym | reflexivity].
  - intros H. split; [now apply part_lt_asym | reflexivity].
Qed.

Lemma compare_suffixes_asym a :
  forall b,
    compare_suffixes a b = Ok true -> compare_suffixes b a = Ok false.
Proof.
  induction a as [| s a IH]; intros [| o b]; simpl; try discriminate;
    try reflexivity.
  assert (Hty : same_type o s = same_type s o)
    by (destruct s, o; reflexivity).
  rewrite Hty. destruct (negb (same_type s o)).
  - rewrite (part_eqb_sym (Txt (str_of_part o))).
    destruct (part_eqb (Txt (str_of_part s)) (Txt (str_of_part o)));
      [apply IH | apply part_lt_asym].
  - rewrite (part_eqb_sym o s).
    destruct (part_eqb s o); [apply IH | apply part_lt_asym].
Qed.

Lemma lt_asym v w :
  lt_ v w = Ok true -> lt_ w v = Ok false /\ __eq__ v w = false.
Proof.
  unfold __lt__, __eq__. intros H.
  apply bind_ok in H. destruct H as [lt [Hlt H]].
  destruct lt.
  - apply tuple3_lt_asym in Hlt. destruct Hlt as [Hrev Hne].
    rewrite Hrev, tuple3_eqb_sym, Hne. now split.
  - destruct (tuple3_eqb (tuple3 v) (tuple3 w)) eqn:Heq; [| discriminate H].
    pose proof Heq as Heq'. rewrite tuple3_eqb_sym in Heq'.
    rewrite (tuple3_eqb_lt _ _ Heq'), Heq'. cbn [bind andb].
    destruct (is_empty (suffix v)) eqn:Ev, (is_empty (suffix w)) eqn:Ew;
      cbn [negb andb] in *.
    + apply bind_ok in H. destruct H as [sv [Hsv H]].
      apply bind_ok in H. destruct H as [sw [Hsw H]].
      rewrite Hsw, Hsv. cbn [bind]. split.
      * now apply compare_suffixes_asym.
      * destruct (suffix v), (suffix w); try discriminate.
        simpl in Hsv, Hsw. injection Hsv as <-. injection Hsw as <-.
        discriminate H.
    + discriminate H.
    + split; [reflexivity |].
      destruct (suffix v), (suffix w); try discriminate. reflexivity.
    + apply bind_ok in H. destruct H as [sv [Hsv H]].
      apply bind_ok in H. destruct H as [sw [Hsw H]].
      rewrite Hsw, Hsv. cbn [bind]. split.
      * now apply compare_suffixes_asym.
      * destruct (str_eqb (suffix v) (suffix w)) eqn:E; [| reflexivity].
        apply str_eqb_eq in E. rewrite E in Hsv. rewrite Hsv in Hsw.
        injection Hsw as <-.
        assert (Hirr : forall l, compare_suffixes l l <> Ok true).
        { clear. induction l as [| p l IHl]; simpl; [discriminate |].
          destruct p as [n | s]; simpl.
          - now rewrite Z.eqb_refl.
          - now rewrite (proj2 (str_eqb_eq s s) eq_refl). }
        now elim (Hirr sv).
Qed.

(** [<] between versions is never true both ways, and is not true between
    two versions that are equal: when [v < w] holds, [w < v] is false and
    [v == w] is false. *)
Theorem version_lt_asymmetric :
  forall v w,
    lt_ v w = Ok true -> lt_ w v = Ok false /\ __eq__ v w = false.
Proof.
  exact lt_asym.
Qed.

(** A version with a suffix is before the version with the same three
    numbers and no suffix: a pre-release precedes its release. *)
Theorem version_prerelease_first :
  forall v w,
    tuple3_eqb (tuple3 v) (tuple3 w) = true ->
    suffix v <> [] -> suffix w = [] ->
    lt_ v w = Ok true /\ lt_ w v = Ok false.
Proof.
  intros v w Heq Hv Hw.
  assert (Hlt : lt_ v w = Ok true).
  { unfold __lt__. rewrite (tuple3_eqb_lt _ _ Heq), Heq. cbn [bind].
    rewrite Hw. destruct (suffix v); [now elim Hv | reflexivity]. }
  split; [exact Hlt | now apply lt_asym].
Qed.

Lemma release_lt v w a b c a' b' c' :
  release v a b c -> release w a' b' c' ->
  lt_ v w = Ok (triple_ltb (a, b, c) (a', b', c')).
Proof.
  intros [Hma [Hmi [Hpa Hs]]] [Hma' [Hmi' [Hpa' Hs']]].
  unfold __lt__, tuple3, tuple3_lt, tuple3_eqb, triple_ltb.
  rewrite Hma, Hmi, Hpa, Hma', Hmi', Hpa', Hs, Hs'. simpl.
  destruct (Z.eqb_spec a a') as [-> | Ha]; simpl.
  - rewrite Z.ltb_irrefl. simpl.
    destruct (Z.eqb_spec b b') as [-> | Hb]; simpl.
    + rewrite Z.ltb_irrefl. simpl.
      destruct (Z.eqb_spec c c') as [-> | Hc]; simpl.
      * now rewrite Z.ltb_irrefl.
      * destruct (c <? c'); reflexivity.
    + destruct (b <? b'); reflexivity.
  - destruct (a <? a'); reflexivity.
Qed.

(** Between two versions of three numbers and no suffix, [<] raises
    nothing and is the order of the tuples [(major, minor, patch)], and
    [==] is the equality of these tuples: of [v < w], [v == w] and
    [w < v] exactly one holds. *)
Theorem version_release_order :
  forall v w a b c a' b' c',
    release v a b c -> release w a' b' c' ->
    lt_ v w = Ok (triple_ltb (a, b, c) (a', b', c'))
    /\ lt_ w v = Ok (triple_ltb (a', b', c') (a, b, c))
    /\ __eq__ v w = ((a =? a') && (b =? b') && (c =? c'))
    /\ (triple_ltb (a, b, c) (a', b', c') = true
        /\ (a, b, c) <> (a', b', c')
        /\ triple_ltb (a', b', c') (a, b, c) = false
        \/ triple_ltb (a, b, c) (a', b', c') = false
           /\ (a, b, c) = (a', b', c')
           /\ triple_ltb (a', b', c') (a, b, c) = false
        \/ triple_ltb (a, b, c) (a', b', c') = false
           /\ (a, b, c) <> (a', b', c')
           /\ triple_ltb (a', b', c') (a, b, c) = true).
Proof.
  intros v w a b c a' b' c' Hv Hw.
  split; [now apply release_lt |]. split; [now apply release_lt |].
  split.
  - destruct Hv as [Hma [Hmi [Hpa Hs]]], Hw as [Hma' [Hmi' [Hpa' Hs']]].
    unfold __eq__, tuple3, tuple3_eqb.
    rewrite Hma, Hmi, Hpa, Hma', Hmi', Hpa', Hs, Hs'. simpl.
    apply andb_true_r.
  - unfold triple_ltb.
    destruct (Z.ltb_spec a a'), (Z.ltb_spec a' a), (Z.eqb_spec a a'),
      (Z.eqb_spec a' a); try lia; simpl;
      try (left; repeat split; [congruence]);
      try (right; right; repeat split; congruence).
    destruct (Z.ltb_spec b b'), (Z.ltb_spec b' b), (Z.eqb_spec b b'),
      (Z.eqb_spec b' b); try lia; simpl;
      try (left; repeat split; [congruence]);
      try (right; right; repeat split; congruence).
    destruct (Z.ltb_spec c c'), (Z.ltb_spec c' c); try lia;
      try (left; repeat split; [intros E; injection E; lia]);
      try (right; right; repeat split; intros E; injection E; lia).
    right. left. repeat split. f_equal; [f_equal |]; lia.
Qed.

(** *** The six comparisons *)

Lemma lt_comparisons v w :
  lt_ v w = Ok true ->
  __le__ unicode_digit v w = Ok true
  /\ __gt__ unicode_digit v w = Ok false
  /\ __ge__ unicode_digit v w = Ok false
  /\ __ne__ v w = true
  /\ __gt__ unicode_digit w v = Ok true
  /\ __ge__ unicode_digit w v = Ok true
  /\ __le__ unicode_digit w v = Ok false.
Proof.
  intros H. destruct (lt_asym v w H) as [Hrev Hne].
  unfold __le__, __gt__, __ge__, __ne__. rewrite H, Hrev, Hne.
  repeat split.
Qed.

(** The six comparisons agree when [v < w] holds: then [v <= w] and
    [v != w] hold, [v > w] and [v >= w] do not, and from the side of [w],
    [w > v] and [w >= v] hold and [w <= v] does not. *)
Theorem version_comparisons_agree :
  forall v w,
    lt_ v w = Ok true ->
    __le__ unicode_digit v w = Ok true
    /\ __gt__ unicode_digit v w = Ok false
    /\ __ge__ unicode_digit v w = Ok false
    /\ __ne__ v w = true
    /\ __gt__ unicode_digit w v = Ok true
    /\ __ge__ unicode_digit w v = Ok true
    /\ __le__ unicode_digit w v = Ok false.
Proof.
  exact lt_comparisons.
Qed.

(** *** What the comparisons raise *)

(** A version whose [minor] is a string, as the empty [minor] of
    [Version('1.')], cannot be compared with a version of the same [major]
    whose [minor] is a number: [<] raises [TypeError] both ways. *)
Theorem version_mixed_minor_raises :
  forall v w u n,
    part_eqb (major v) (major w) = true ->
    minor v = Txt u -> minor w = Num n ->
    lt_ v w = Raise TypeError /\ lt_ w v = Raise TypeError.
Proof.
  intros v w u n Hmaj Hv Hw. unfold __lt__, tuple3, tuple3_lt.
  rewrite (part_eqb_sym (major w)), Hmaj, Hv, Hw. split; reflexivity.
Qed.







(** *** The order is not transitive *)

(** [<] is not transitive on the versions [Version] builds:
    [1.0-9 < 1.0-10] as numbers, [1.0-10 < 1.0-1a] as strings and
    [1.0-1a < 1.0-9] as strings, so [1.0-9 < 1.0-1a] is false. *)
Theorem version_lt_not_transitive :
  exists a b c,
    init (of_string "1.0-9") = Ok a
    /\ init (of_string "1.0-10") = Ok b
    /\ init (of_string "1.0-1a") = Ok c
    /\ lt_ a b = Ok true
    /\ lt_ b c = Ok true
    /\ lt_ c a = Ok true
    /\ lt_ a c = Ok false.
Proof.
  do 3 eexists.
  split; [vm_compute; reflexivity |].
  split; [vm_compute; reflexivity |].
  split; [vm_compute; reflexivity |].
  repeat split; vm_compute; reflexivity.
Qed.

(** *** The strings [Version] accepts *)

(** [Version] accepts only a string that starts with an ASCII digit, after
    a [v] if it starts with one, and keeps the string in [vstr]; every
    other string, the empty one among them, raises [ValueError]. *)
Theorem init_accepts_digit_first :
  forall s,
    (forall v, init s = Ok v ->
       vstr v = s
       /\ exists c rest,
            (s = c :: rest \/ s = 118%N :: c :: rest)
            /\ is_ascii_digit c = true)
    /\ ((forall c rest,
           s = c :: rest \/ s = 118%N :: c :: rest ->
           is_ascii_digit c = false) ->
        init s = value_error).
Proof.
  intros s. unfold __init__, _parse. split.
  - intros v. destruct s as [| x s]; [discriminate |]. cbn [is_empty].
    change (startswith (x :: s) (of_string "v"))
      with (N.eqb 118 x && startswith s []).
    assert (Hs : startswith s [] = true) by (destruct s; reflexivity).
    rewrite Hs, andb_true_r.
    destruct (N.eqb_spec 118 x) as [<- | Hx]; cbn [tl].
    + destruct (match_version s) as [[version suffix] |] eqn:Hm;
        [| discriminate].
      intros H. split.
      * destruct (_parse_dotted_string _ _) as [parts | e];
          [| discriminate H]. cbn [bind] in H.
        destruct (pop0 parts) as [[p1 ps1] | e]; [| discriminate H].
        cbn [bind] in H.
        destruct (if (0 <? length ps1)%nat then pop0 ps1 else _)
          as [[p2 ps2] | e]; [| discriminate H].
        cbn [bind] in H.
        destruct (if (0 <? length ps2)%nat then pop0 ps2 else _)
          as [[p3 ps3] | e]; [| discriminate H].
        cbn [bind] in H.
        destruct (negb _); [discriminate H |].
        destruct suffix as [suf |]; [| now injection H as <-].
        destruct (find 43 suf) as [idx |];
          repeat match type of H with
                 | (if ?b then _ else _) = _ =>
                     destruct b; try discriminate H
                 end; now injection H as <-.
      * destruct s as [| c rest]; [discriminate Hm |]. simpl in Hm.
        destruct (is_ascii_digit c) eqn:Hc; [| discriminate Hm].
        exists c, rest. split; [now right | exact Hc].
    + destruct (match_version (x :: s)) as [[version suffix] |] eqn:Hm;
        [| discriminate].
      intros H. split.
      * destruct (_parse_dotted_string _ _) as [parts | e];
          [| discriminate H]. cbn [bind] in H.
        destruct (pop0 parts) as [[p1 ps1] | e]; [| discriminate H].
        cbn [bind] in H.
        destruct (if (0 <? length ps1)%nat then pop0 ps1 else _)
          as [[p2 ps2] | e]; [| discriminate H].
        cbn [bind] in H.
        destruct (if (0 <? length ps2)%nat then pop0 ps2 else _)
          as [[p3 ps3] | e]; [| discriminate H].
        cbn [bind] in H.
        destruct (negb _); [discriminate H |].
        destruct suffix as [suf |]; [| now injection H as <-].
        destruct (find 43 suf) as [idx |];
          repeat match type of H with
                 | (if ?b then _ else _) = _ =>
                     destruct b; try discriminate H
                 end; now injection H as <-.
      * simpl in Hm. destruct (is_ascii_digit x) eqn:Hc; [| discriminate Hm].
        exists x, s. split; [now left | exact Hc].
  - intros Hno. destruct s as [| x s]; [reflexivity |]. cbn [is_empty].
    change (startswith (x :: s) (of_string "v"))
      with (N.eqb 118 x && startswith s []).
    assert (Hs : startswith s [] = true) by (destruct s; reflexivity).
    rewrite Hs, andb_true_r.
    destruct (N.eqb_spec 118 x) as [<- | Hx]; cbn [tl].
    + destruct s as [| c rest]; [reflexivity |]. simpl.
      now rewrite (Hno c rest (or_intror eq_refl)).
    + simpl. now rewrite (Hno x s (or_introl eq_refl)).
Qed.

End VersionProperties.

(** ** The further properties on concrete inputs *)

(** Spaces around and between the words [adobe] and [illust]. *)
Lemma filter_same_words_witness :
  OnStrings.filter (of_string " adobe   illust ")
    [of_string "Adobe Photoshop"; of_string "Adobe Illustrator"]
    false false 0%Q 0 MATCH_ALL true
  = OnStrings.filter (of_string "adobe illust")
      [of_string "Adobe Photoshop"; of_string "Adobe Illustrator"]
      false false 0%Q 0 MATCH_ALL true.
Proof.
  unfold OnStrings.filter. apply filter_same_words.
  - vm_compute. discriminate.
  - vm_compute. discriminate.
  - vm_compute. reflexivity.
Defined.

(** The query [a] against three candidates, cut to two results. *)
Lemma filter_max_results_slices_witness :
  OnStrings.filter (of_string "a")
    [of_string "Safari"; of_string "Adobe Photoshop";
     of_string "Adobe Illustrator"]
    false false 0%Q 2 MATCH_ALL true
  = Ok (slice_output str
          (Items [of_string "Adobe Photoshop"; of_string "Safari";
                  of_string "Adobe Illustrator"]) 2)
  /\ (0 < 2 ->
      Z.of_nat
        (length
           (items_of str
              (slice_output str
                 (Items [of_string "Adobe Photoshop"; of_string "Safari";
                         of_string "Adobe Illustrator"]) 2)))
      <= 2).
Proof.
  unfold OnStrings.filter. apply filter_max_results_slices.
  - vm_compute. discriminate.
  - discriminate.
  - vm_compute. reflexivity.
Defined.

(** With [min_score=84] the candidate [Safari], whose score is 84, is left
    out, and [Adobe Photoshop], whose score is 85, is returned. *)
Lemma filter_min_score_strict_witness :
  (84 < 85)%Q.
Proof.
  apply (filter_min_score_strict str Empty_set str_eqb OnStrings.item_lt
           OnStrings.lower OnStrings.ci_eq OnStrings.fold_to_ascii None
           (of_string "a")
           [of_string "Safari"; of_string "Adobe Photoshop";
            of_string "Adobe Illustrator"]
           OnStrings.key false 84%Q 0 MATCH_ALL true
           [(of_string "Adobe Photoshop", 85%Q, Some MATCH_STARTSWITH)]
           ltac:(discriminate) ltac:(vm_compute; reflexivity)
           (of_string "Adobe Photoshop") 85%Q (Some MATCH_STARTSWITH)).
  left. reflexivity.
Defined.

(** The query [a] with and without the scores. *)
Lemma filter_include_score_same_candidates_witness :
  OnStrings.filter (of_string "a")
    [of_string "Safari"; of_string "Adobe Photoshop";
     of_string "Adobe Illustrator"]
    false false 0%Q 0 MATCH_ALL true
  = Ok (Items
          (items_of str
             (Scored
                [(of_string "Adobe Photoshop", 85%Q, Some MATCH_STARTSWITH);
                 (of_string "Safari", 84%Q, Some MATCH_SUBSTRING);
                 (of_string "Adobe Illustrator", 83%Q,
                  Some MATCH_STARTSWITH)]))).
Proof.
  unfold OnStrings.filter. apply filter_include_score_same_candidates.
  vm_compute. reflexivity.
Defined.

(** The query [adobe illust] returns one of the two candidates. *)
Lemma filter_returns_part_of_items_witness :
  exists dropped,
    Permutation
      (items_of str (Items [of_string "Adobe Illustrator"]) ++ dropped)
      [of_string "Adobe Photoshop"; of_string "Adobe Illustrator"].
Proof.
  apply (filter_returns_part_of_items str Empty_set str_eqb
           OnStrings.item_lt OnStrings.lower OnStrings.ci_eq
           OnStrings.fold_to_ascii None (of_string "adobe illust")
           [of_string "Adobe Photoshop"; of_string "Adobe Illustrator"]
           OnStrings.key false false 0%Q 0 MATCH_ALL true).
  vm_compute. reflexivity.
Defined.

(** The query [adobe illust] against [Adobe Illustrator]: the score is
    [(100 - 17/5) + (90 - 17/6)] and the rule is SUBSTRING, the rule of
    [illust]. *)
Lemma filter_score_is_sum_and_rule_is_last_witness :
  exists k srs,
    OnStrings.key (of_string "Adobe Illustrator") = Ok k
    /\ word_results Empty_set OnStrings.lower OnStrings.ci_eq
         OnStrings.fold_to_ascii MATCH_ALL (folding_in_effect None true)
         (strip k) (words_of (of_string "adobe illust")) srs
    /\ (5513 # 30)%Q = total_score srs
    /\ Some MATCH_SUBSTRING = last_rule srs.
Proof.
  apply (filter_score_is_sum_and_rule_is_last str Empty_set str_eqb
           OnStrings.item_lt OnStrings.lower OnStrings.ci_eq
           OnStrings.fold_to_ascii None (of_string "adobe illust")
           [of_string "Adobe Photoshop"; of_string "Adobe Illustrator"]
           OnStrings.key false 0%Q 0 MATCH_ALL true
           [(of_string "Adobe Illustrator", (5513 # 30)%Q,
             Some MATCH_SUBSTRING)]).
  - vm_compute. reflexivity.
  - left. reflexivity.
Defined.

(** On strings [filter] raises nothing. *)
Lemma filter_raises_nothing_witness :
  exists out,
    OnStrings.filter (of_string "a")
      [of_string "Safari"; of_string "Adobe Photoshop"]
      true true 0%Q 0 MATCH_ALL true
    = Ok out.
Proof.
  unfold OnStrings.filter. apply filter_raises_nothing.
  - intros [| c w] Hw; [now elim Hw |].
    unfold OnStrings.lower, OnStrings.lower_char. simpl.
    repeat match goal with
           | |- context [if ?b then _ else _] => destruct b
           end; discriminate.
  - intros item _. eexists. reflexivity.
  - intros a b _ _. discriminate.
Defined.

(** The word [gc] in [Google Chrome]: the match is [Google C]. *)
Lemma search_for_query_span_witness :
  (0 + length (of_string "gc") <= 8 <= length (of_string "Google Chrome"))%nat
  /\ (0%nat = 0%nat
      \/ nth_error (of_string "Google Chrome") (0 - 1) = Some 10%N)
  /\ (one_line (of_string "Google Chrome") -> 0%nat = 0%nat).
Proof.
  apply (search_for_query_span OnStrings.ci_eq (of_string "gc")
           (of_string "Google Chrome") 0 8).
  vm_compute. reflexivity.
Defined.

(** The characters of [gc] occur in this order in [Google Chrome], a key
    of one line. *)
Lemma search_for_query_finds_ordered_characters_witness :
  _search_for_query OnStrings.ci_eq (of_string "gc")
    (of_string "Google Chrome") <> None.
Proof.
  apply (proj2 (search_for_query_finds_ordered_characters OnStrings.ci_eq
                  (of_string "gc") (of_string "Google Chrome"))).
  - intros x Hx. vm_compute in Hx.
    repeat (destruct Hx as [<- | Hx]; [discriminate |]). destruct Hx.
  - apply occurs_take; [reflexivity |].
    do 6 apply occurs_skip. apply occurs_take; [reflexivity |].
    apply occurs_nil.
Defined.


(** The word [chrome] occurs in [Google Chrome]. *)
Lemma filter_item_substring_gets_rule_witness :
  exists s rl,
    OnStrings._filter_item (of_string "Google Chrome") (of_string "chrome")
      MATCH_ALL true
    = Ok (s, Some (bit rl)).
Proof.
  unfold OnStrings._filter_item. apply filter_item_substring_gets_rule.
  - reflexivity.
  - vm_compute. discriminate.
  - vm_compute. reflexivity.
Defined.

(** [Version('v1.2-beta+b1')] *)
Lemma init_parsed_witness :
  Version.parsed
    (Version.make (of_string "v1.2-beta+b1") (Version.Num 1) (Version.Num 2)
       (Version.Num 0) (of_string "beta") (of_string "b1")).
Proof.
  apply (init_parsed (fun _ => Version.NoDigit) (of_string "v1.2-beta+b1")).
  vm_compute. reflexivity.
Defined.

(** [str(Version('v1.2-beta+b1'))] is [1.2.0-beta+b1], which gives the same
    version. *)
Lemma init_str_round_trip_witness :
  exists v',
    Version.__init__ (fun _ => Version.NoDigit)
      (Version.__str__
         (Version.make (of_string "v1.2-beta+b1") (Version.Num 1)
            (Version.Num 2) (Version.Num 0) (of_string "beta")
            (of_string "b1")))
    = Ok v'
    /\ Version.vstr v' = of_string "1.2.0-beta+b1"
    /\ (Version.major v', Version.minor v', Version.patch v',
        Version.suffix v', Version.build v')
       = (Version.Num 1, Version.Num 2, Version.Num 0, of_string "beta",
          of_string "b1")
    /\ Version.__eq__ v'
         (Version.make (of_string "v1.2-beta+b1") (Version.Num 1)
            (Version.Num 2) (Version.Num 0) (of_string "beta")
            (of_string "b1"))
       = true.
Proof.
  apply (init_str_round_trip (fun _ => Version.NoDigit)
           (of_string "v1.2-beta+b1")
           (Version.make (of_string "v1.2-beta+b1") (Version.Num 1)
              (Version.Num 2) (Version.Num 0) (of_string "beta")
              (of_string "b1"))).
  vm_compute. reflexivity.
Defined.

(** [1.0-9 < 1.0-10]: the members of the suffixes are compared as
    numbers. *)
Lemma version_lt_asymmetric_witness :
  Version.__lt__ (fun _ => Version.NoDigit)
    (Version.make (of_string "1.0-10") (Version.Num 1) (Version.Num 0)
       (Version.Num 0) (of_string "10") [])
    (Version.make (of_string "1.0-9") (Version.Num 1) (Version.Num 0)
       (Version.Num 0) (of_string "9") [])
  = Ok false
  /\ Version.__eq__
       (Version.make (of_string "1.0-9") (Version.Num 1) (Version.Num 0)
          (Version.Num 0) (of_string "9") [])
       (Version.make (of_string "1.0-10") (Version.Num 1) (Version.Num 0)
          (Version.Num 0) (of_string "10") [])
     = false.
Proof.
  apply version_lt_asymmetric. vm_compute. reflexivity.
Defined.

(** [3.1-beta < 3.1.0] *)
Lemma version_prerelease_first_witness :
  Version.__lt__ (fun _ => Version.NoDigit)
    (Version.make (of_string "3.1-beta") (Version.Num 3) (Version.Num 1)
       (Version.Num 0) (of_string "beta") [])
    (Version.make (of_string "3.1.0") (Version.Num 3) (Version.Num 1)
       (Version.Num 0) [] [])
  = Ok true
  /\ Version.__lt__ (fun _ => Version.NoDigit)
       (Version.make (of_string "3.1.0") (Version.Num 3) (Version.Num 1)
          (Version.Num 0) [] [])
       (Version.make (of_string "3.1-beta") (Version.Num 3) (Version.Num 1)
          (Version.Num 0) (of_string "beta") [])
     = Ok false.
Proof.
  apply version_prerelease_first.
  - reflexivity.
  - discriminate.
  - reflexivity.
Defined.

(** [0.0.1 < 1.0.1], the comparison of the docstring of [Version]. *)
Lemma version_release_order_witness :
  Version.__lt__ (fun _ => Version.NoDigit)
    (Version.make (of_string "0.0.1") (Version.Num 0) (Version.Num 0)
       (Version.Num 1) [] [])
    (Version.make (of_string "1.0.1") (Version.Num 1) (Version.Num 0)
       (Version.Num 1) [] [])
  = Ok (Version.triple_ltb (0, 0, 1) (1, 0, 1)).
Proof.
  apply (version_release_order (fun _ => Version.NoDigit)
           (Version.make (of_string "0.0.1") (Version.Num 0) (Version.Num 0)
              (Version.Num 1) [] [])
           (Version.make (of_string "1.0.1") (Version.Num 1) (Version.Num 0)
              (Version.Num 1) [] [])
           0 0 1 1 0 1).
  - repeat split.
  - repeat split.
Defined.

(** [1.0.1 > 0.0.1], the comparison of the docstring of [Version], with
    the other comparisons of the two versions. *)
Lemma version_comparisons_agree_witness :
  Version.__le__ (fun _ => Version.NoDigit)
    (Version.make (of_string "0.0.1") (Version.Num 0) (Version.Num 0)
       (Version.Num 1) [] [])
    (Version.make (of_string "1.0.1") (Version.Num 1) (Version.Num 0)
       (Version.Num 1) [] [])
  = Ok true
  /\ Version.__gt__ (fun _ => Version.NoDigit)
       (Version.make (of_string "0.0.1") (Version.Num 0) (Version.Num 0)
          (Version.Num 1) [] [])
       (Version.make (of_string "1.0.1") (Version.Num 1) (Version.Num 0)
          (Version.Num 1) [] [])
     = Ok false
  /\ Version.__ge__ (fun _ => Version.NoDigit)
       (Version.make (of_string "0.0.1") (Version.Num 0) (Version.Num 0)
          (Version.Num 1) [] [])
       (Version.make (of_string "1.0.1") (Version.Num 1) (Version.Num 0)
          (Version.Num 1) [] [])
     = Ok false
  /\ Version.__ne__
       (Version.make (of_string "0.0.1") (Version.Num 0) (Version.Num 0)
          (Version.Num 1) [] [])
       (Version.make (of_string "1.0.1") (Version.Num 1) (Version.Num 0)
          (Version.Num 1) [] [])
     = true
  /\ Version.__gt__ (fun _ => Version.NoDigit)
       (Version.make (of_string "1.0.1") (Version.Num 1) (Version.Num 0)
          (Version.Num 1) [] [])
       (Version.make (of_string "0.0.1") (Version.Num 0) (Version.Num 0)
          (Version.Num 1) [] [])
     = Ok true
  /\ Version.__ge__ (fun _ => Version.NoDigit)
       (Version.make (of_string "1.0.1") (Version.Num 1) (Version.Num 0)
          (Version.Num 1) [] [])
       (Version.make (of_string "0.0.1") (Version.Num 0) (Version.Num 0)
          (Version.Num 1) [] [])
     = Ok true
  /\ Version.__le__ (fun _ => Version.NoDigit)
       (Version.make (of_string "1.0.1") (Version.Num 1) (Version.Num 0)
          (Version.Num 1) [] [])
       (Version.make (of_string "0.0.1") (Version.Num 0) (Version.Num 0)
          (Version.Num 1) [] [])
     = Ok false.
Proof.
  apply version_comparisons_agree. vm_compute. reflexivity.
Defined.

(** [Version('1.')], whose [minor] is the empty string, against
    [Version('1.0')]. *)
Lemma version_mixed_minor_raises_witness :
  Version.__init__ (fun _ => Version.NoDigit) (of_string "1.")
  = Ok (Version.make (of_string "1.") (Version.Num 1) (Version.Txt [])
          (Version.Num 0) [] [])
  /\ Version.__lt__ (fun _ => Version.NoDigit)
       (Version.make (of_string "1.") (Version.Num 1) (Version.Txt [])
          (Version.Num 0) [] [])
       (Version.make (of_string "1.0") (Version.Num 1) (Version.Num 0)
          (Version.Num 0) [] [])
     = Raise TypeError
  /\ Version.__lt__ (fun _ => Version.NoDigit)
       (Version.make (of_string "1.0") (Version.Num 1) (Version.Num 0)
          (Version.Num 0) [] [])
       (Version.make (of_string "1.") (Version.Num 1) (Version.Txt [])
          (Version.Num 0) [] [])
     = Raise TypeError.
Proof.
  split; [vm_compute; reflexivity |].
  apply (version_mixed_minor_raises (fun _ => Version.NoDigit)
           (Version.make (of_string "1.") (Version.Num 1) (Version.Txt [])
              (Version.Num 0) [] [])
           (Version.make (of_string "1.0") (Version.Num 1) (Version.Num 0)
              (Version.Num 0) [] [])
           [] 0).
  - reflexivity.
  - reflexivity.
  - reflexivity.
Defined.


(** [Version('x1')] raises [ValueError]. *)
Lemma init_accepts_digit_first_witness :
  Version.__init__ (fun _ => Version.NoDigit) (of_string "x1")
  = Version.value_error.
Proof.
  apply (proj2 (init_accepts_digit_first (fun _ => Version.NoDigit)
                  (of_string "x1"))).
  intros c rest [E | E]; [| discriminate E].
  injection E as <- _. reflexivity.
Defined.

(** The word [goog] starts [Google Chrome]. *)
Lemma filter_item_prefix_is_startswith_witness :
  OnStrings._filter_item (of_string "Google Chrome") (of_string "goog")
    MATCH_ALL true
  = Ok ((100
         - inject_Z
             (len (folded OnStrings.lower OnStrings.fold_to_ascii
                     (of_string "Google Chrome") (of_string "goog") true))
           / inject_Z (len (OnStrings.lower (of_string "goog"))))%Q,
        Some MATCH_STARTSWITH).
Proof.
  unfold OnStrings._filter_item. apply filter_item_prefix_is_startswith.
  - reflexivity.
  - vm_compute. discriminate.
  - vm_compute. reflexivity.
Defined.
